(** * The [hello] example's sum task (examples/hello/src/sum.cc)

    A shallow embedding of [hello::SumTask::cpu_variant]: the leaf task
    that adds up one slice of a one-dimensional float store and reduces
    the local total into its private accumulator.

    - machine integers are [Z] with the conversions between the signed
      store coordinates and the [size_t] loop counter written out;
    - [float] is IEEE binary32, through the Standard Library's executable
      [SpecFloat] operations at precision 24 and maximal exponent 128;
    - a store's memory is a finite map from coordinates to floats, so an
      access outside the instance is visible as [Fault];
    - every effect of the task body (log record, accessor read, reduce)
      is recorded in a trace, next to the result of the invocation. *)

From Stdlib Require Import ZArith Lia Floats.SpecFloat.
From stdpp Require Import gmap list.

Local Open Scope Z_scope.

(** ** Machine integers *)

(** The corners of a rectangle are coordinates of the runtime, 64-bit
    signed; the loop counter of the task body is a [size_t], 64-bit
    unsigned on the platforms the library is built for. The task body
    converts between the two three times. *)

Module Machine.

(** [size_t i = lo]: a coordinate converted to the unsigned counter; also
    the conversion of [hi] in [i <= hi], where the usual arithmetic
    conversions turn the signed operand into the unsigned type. *)
Definition to_size_t (c : Z) : Z := c mod 2 ^ 64.

(** [in[i]]: the counter converted back to a coordinate. *)
Definition to_coord (u : Z) : Z := if u <? 2 ^ 63 then u else u - 2 ^ 64.

(** [++i] on a [size_t]. *)
Definition size_t_succ (u : Z) : Z := (u + 1) mod 2 ^ 64.

End Machine.

(** ** Single-precision floats *)

Module Float32.

Definition float : Type := spec_float.

Definition prec : Z := 24.
Definition emax : Z := 128.

(** [a + b] on [float], round to nearest even. *)
Definition fadd (a b : float) : float := SFadd prec emax a b.

(** The literal [0] converted to [float]: positive zero. *)
Definition fzero : float := S754_zero false.

(** The float nearest to an integer constant such as [1.0] or [3.0]. *)
Definition float_of_Z (n : Z) : float := binary_normalize prec emax n 0 false.

End Float32.

Export Machine Float32.

(** ** Stores and the task context *)

(** Modelled from the spec: the element type codes are declared in a header
    of the library that sum.cc includes; sum.cc names [FLOAT_LT] only, the
    other constructors stand for the remaining element types. *)
Inductive LegateTypeCode : Type :=
  | BOOL_LT | INT8_LT | INT16_LT | INT32_LT | INT64_LT
  | UINT8_LT | UINT16_LT | UINT32_LT | UINT64_LT
  | HALF_LT | FLOAT_LT | DOUBLE_LT | COMPLEX64_LT | COMPLEX128_LT.

#[global] Instance LegateTypeCode_eq_dec : EqDecision LegateTypeCode.
Proof. solve_decision. Defined.

(** Modelled from the spec: [legate::Rect<1>], the inclusive bounds
    [lo, hi] of a one-dimensional index range, declared outside sum.cc;
    its corners are signed 64-bit coordinates, and a range with [hi < lo]
    is empty. *)
Record Rect : Type := mkRect { lo : Z; hi : Z }.

(** [operator==] on rectangles compares both corners. *)
Definition rect_eqb (a b : Rect) : bool := (lo a =? lo b) && (hi a =? hi b).

(** Modelled from the spec: a store exposes its element type code, its
    rank, its shape and typed accessors onto runtime-owned memory; [cells]
    is that memory, defined exactly at the coordinates of the instance. *)
Record Store : Type := mkStore {
  code : LegateTypeCode;
  dim : Z;
  shape : Rect;
  cells : gmap Z float
}.

(** Modelled from the spec: the task context exposes indexed input stores
    and indexed reduction stores (and the output stores, unused here). *)
Record TaskContext : Type := mkTaskContext {
  inputs : list Store;
  outputs : list Store;
  reductions : list Store
}.

(** ** Effects *)

Inductive store_ref : Type :=
  | InputStore (n : nat)
  | ReductionStore (n : nat).

Inductive event : Type :=
  | EvLog (l h : Z)                                (* "Sum [" l "," h "]" *)
  | EvRead (s : store_ref) (p : Z)                 (* in[p] *)
  | EvReduce (s : store_ref) (p : Z) (v : float).  (* sum.reduce(p, v) *)

Inductive assertion : Type :=
  | AssertCode    (* output.code() == FLOAT_LT *)
  | AssertDim     (* output.dim() == 1 *)
  | AssertShape.  (* output.shape<1>() == Rect<1>(0, 0) *)

Inductive result (A : Type) : Type :=
  | Done (a : A)                     (* ran to completion *)
  | AssertionFailed (a : assertion)  (* [assert] aborted the process *)
  | Fault                            (* access outside a container *)
  | OutOfFuel.                       (* still running when the fuel ended *)

Arguments Done {A} a.
Arguments AssertionFailed {A} a.
Arguments Fault {A}.
Arguments OutOfFuel {A}.

(** A computation yields the events it performed and how it ended. *)
Definition M (A : Type) : Type := list event * result A.

Definition ret {A} (a : A) : M A := ([], Done a).

Definition bind {A B} (m : M A) (k : A -> M B) : M B :=
  match m with
  | (tr, Done a) => let '(tr', r) := k a in (tr ++ tr', r)
  | (tr, AssertionFailed a) => (tr, AssertionFailed a)
  | (tr, Fault) => (tr, Fault)
  | (tr, OutOfFuel) => (tr, OutOfFuel)
  end.

Declare Scope task_scope.
Delimit Scope task_scope with task.
Notation "'let*' x := m 'in' k" := (bind m (fun x => k))
  (at level 10, x name, m at level 100, k at level 200) : task_scope.
Notation "m ;; k" := (bind m (fun _ => k))
  (at level 100, k at level 200, right associativity) : task_scope.

(** [v[n]] on the vector of stores of a context. *)
Definition vec_at {A} (v : list A) (n : nat) : M A :=
  match v !! n with
  | Some a => ret a
  | None => ([], Fault)
  end.

(** [logger.info() << "Sum [" << lo << "," << hi << "]"]. *)
Definition log_info (r : Rect) : M unit := ([EvLog (lo r) (hi r)], Done tt).

(** [assert(b)], with assertions compiled in. *)
Definition assert (b : bool) (a : assertion) : M unit :=
  if b then ret tt else ([], AssertionFailed a).

(** Modelled from the spec: a read accessor is a typed view onto the
    store's memory, indexed by global coordinates. *)
Definition acc_read (s : store_ref) (st : Store) (p : Z) : M float :=
  ([EvRead s p],
   match cells st !! p with
   | Some x => Done x
   | None => Fault
   end).

(** Modelled from the spec: [reduce] on a sum-reduction accessor adds the
    value to the addressed cell of the accumulator, in place. *)
Definition acc_reduce (s : store_ref) (st : Store) (p : Z) (v : float) : M Store :=
  ([EvReduce s p v],
   match cells st !! p with
   | Some a =>
       Done (mkStore (code st) (dim st) (shape st) (<[p := fadd a v]> (cells st)))
   | None => Fault
   end).

(** ** The task body *)

Local Open Scope task_scope.

(** [for (size_t i = lo; i <= hi; ++i) { total += in[i]; }], one unit of
    fuel per evaluation of the loop condition. *)
Fixpoint sum_loop (fuel : nat) (input : Store) (h : Z) (i : Z) (total : float)
  : M float :=
  match fuel with
  | O => ([], OutOfFuel)
  | S fuel' =>
      if i <=? to_size_t h then
        let* x := acc_read (InputStore 0) input (to_coord i) in
        sum_loop fuel' input h (size_t_succ i) (fadd total x)
      else ret total
  end.

(** [SumTask::cpu_variant]; the result is the context as the invocation
    leaves it. *)
Definition cpu_variant (fuel : nat) (context : TaskContext) : M TaskContext :=
  let* input := vec_at (inputs context) 0 in
  let input_shape := shape input in
  log_info input_shape ;;
  let* total :=
    sum_loop fuel input (hi input_shape) (to_size_t (lo input_shape)) fzero in
  let* output := vec_at (reductions context) 0 in
  assert (bool_decide (code output = FLOAT_LT)) AssertCode ;;
  assert (dim output =? 1) AssertDim ;;
  assert (rect_eqb (shape output) (mkRect 0 0)) AssertShape ;;
  let* output' := acc_reduce (ReductionStore 0) output 0 total in
  ret (mkTaskContext (inputs context) (outputs context)
                     (<[0%nat := output']> (reductions context))).

Local Close Scope task_scope.

(** The part of [cpu_variant] after the loop, written out case by case:
    the loop has performed [reads] and left [total]. *)
Definition after_loop (context : TaskContext) (input : Store)
    (reads : list event) (total : float) : M TaskContext :=
  let log := EvLog (lo (shape input)) (hi (shape input)) in
  match reductions context !! 0%nat with
  | None => (log :: reads, Fault)
  | Some output =>
      if bool_decide (code output = FLOAT_LT) then
        if dim output =? 1 then
          if rect_eqb (shape output) (mkRect 0 0) then
            match cells output !! 0 with
            | Some a =>
                (log :: reads ++ [EvReduce (ReductionStore 0) 0 total],
                 Done (mkTaskContext (inputs context) (outputs context)
                         (<[0%nat := mkStore (code output) (dim output) (shape output)
                                       (<[0 := fadd a total]> (cells output))]>
                            (reductions context))))
            | None => (log :: reads ++ [EvReduce (ReductionStore 0) 0 total], Fault)
            end
          else (log :: reads, AssertionFailed AssertShape)
        else (log :: reads, AssertionFailed AssertDim)
      else (log :: reads, AssertionFailed AssertCode)
  end.

(** The trace of a complete run: the log record, the reads of the
    segment in ascending order, one reduce. *)
Definition run_trace (r : Rect) (total : float) : list event :=
  EvLog (lo r) (hi r)
    :: map (EvRead (InputStore 0)) (seqZ (lo r) (hi r + 1 - lo r))
    ++ [EvReduce (ReductionStore 0) 0 total].

(** ** Observing an invocation *)

Definition trace {A} (m : M A) : list event := fst m.
Definition outcome {A} (m : M A) : result A := snd m.

Definition is_read (e : event) : bool :=
  match e with EvRead _ _ => true | _ => false end.

(** What an invocation does to the world around it: every event that is
    not a mere read. *)
Definition side_effects (tr : list event) : list event :=
  List.filter (fun e => negb (is_read e)) tr.

(** The values handed to [reduce], in order. *)
Definition reduced_values (tr : list event) : list float :=
  omap (fun e => match e with EvReduce _ _ v => Some v | _ => None end) tr.

(** The value an invocation contributes to its accumulator. *)
Definition contribution (tr : list event) : option float := head (reduced_values tr).

(** The accumulator cell of a context: index 0 of reduction store 0. *)
Definition accumulator_value (context : TaskContext) : option float :=
  st ← reductions context !! 0%nat; cells st !! 0.

(** ** The specification's words *)

(** The bounds of a slice of an array: both corners are array indices. *)
Definition index_bounds (r : Rect) : Prop :=
  0 <= lo r < 2 ^ 63 /\ 0 <= hi r < 2 ^ 63.

(** The elements of the store's segment, at indices lo, lo+1, ..., hi. *)
Definition segment (st : Store) : option (list float) :=
  mapM (fun p => cells st !! p)
       (seqZ (lo (shape st)) (hi (shape st) + 1 - lo (shape st))).

(** The sequential sum: elements added one by one, in order, starting
    from 0. *)
Definition sequential_sum (xs : list float) : float := fold_left fadd xs fzero.

(** A reduction store that passes the three checks of the task and holds
    [a] in its single cell. *)
Definition accumulator (st : Store) (a : float) : Prop :=
  code st = FLOAT_LT /\ dim st = 1 /\ shape st = mkRect 0 0 /\ cells st !! 0 = Some a.

(** What the three assertions demand of the reduction store. *)
Definition preconditions (output : Store) : Prop :=
  code output = FLOAT_LT /\ dim output = 1 /\ shape output = mkRect 0 0.

(** A partition of the index range [start, stop) into non-empty
    contiguous segments, in ascending order. *)
Fixpoint tiles (start stop : Z) (segs : list Rect) : Prop :=
  match segs with
  | [] => start = stop
  | r :: rest => lo r = start /\ lo r <= hi r /\ tiles (hi r + 1) stop rest
  end.

(** The exact sum of a list of integers. *)
Definition integer_sum (ns : list Z) : Z := foldr Z.add 0 ns.

(** ** Point tasks over a logical array *)

(** The elements of [arr] at indices [l .. h]. *)
Definition slice {A} (arr : list A) (l h : Z) : list A :=
  take (Z.to_nat (h + 1 - l)) (drop (Z.to_nat l) arr).

(** The input store of the point task assigned [l .. h]: a float store of
    rank one whose memory holds the slice at its global indices. *)
Definition slice_store (arr : list float) (r : Rect) : Store :=
  mkStore FLOAT_LT 1 r (map_seqZ (lo r) (slice arr (lo r) (hi r))).

(** Modelled from the spec: each point task gets its own accumulator,
    initialised by the runtime to the identity of the reduction. *)
Definition fresh_accumulator : Store :=
  mkStore FLOAT_LT 1 (mkRect 0 0) {[ 0 := fzero ]}.

(** The context of the point task assigned [r]. *)
Definition point_context (arr : list float) (r : Rect) : TaskContext :=
  mkTaskContext [slice_store arr r] [] [fresh_accumulator].

(** What that point task hands to [reduce]. *)
Definition point_contribution (fuel : nat) (arr : list float) (r : Rect)
  : option float :=
  contribution (trace (cpu_variant fuel (point_context arr r))).

(** Modelled from the spec: after all point tasks have returned, the
    runtime combines what they contributed with the sum reduction,
    starting from its identity. *)
Definition launch (fuel : nat) (arr : list float) (segs : list Rect)
  : option float :=
  cs ← mapM (point_contribution fuel arr) segs; Some (sequential_sum cs).

(** The float that holds the positive integer [n] of at most 24 bits. *)
Definition norm (n : positive) : float :=
  S754_finite false (Z.to_pos (Zpos n * 2 ^ (24 - Zpos (Pos.size n))))
              (Zpos (Pos.size n) - 24).

(** A value of the signed 64-bit coordinate type. *)
Definition coordinate (c : Z) : Prop := - 2 ^ 63 <= c < 2 ^ 63.

(** Bounds of one sign, the upper one not -1: the counter keeps their
    order. *)
Definition one_sign (r : Rect) : Prop :=
  coordinate (lo r) /\ coordinate (hi r) /\
  (0 <= lo r /\ 0 <= hi r \/ lo r < 0 /\ hi r < -1).

(** ** Inputs of the examples *)

(** A store over the range [-3, -2], below the origin. *)
Definition store_below_zero : Store :=
  mkStore FLOAT_LT 1 (mkRect (-3) (-2)) (map_seqZ (-3) [float_of_Z 1; float_of_Z 2]).

(** A store over the range [-1, 0], across the origin. *)
Definition store_across_zero : Store :=
  mkStore FLOAT_LT 1 (mkRect (-1) 0) (map_seqZ (-1) [float_of_Z 1; float_of_Z 2]).

(** A store whose two elements are a number and a NaN. *)
Definition store_with_nan : Store :=
  mkStore FLOAT_LT 1 (mkRect 0 1) (map_seqZ 0 [float_of_Z 1; S754_nan]).

(** A store whose two elements are negative zeros. *)
Definition store_of_negative_zeros : Store :=
  mkStore FLOAT_LT 1 (mkRect 0 1) (map_seqZ 0 [S754_zero true; S754_zero true]).

(** The array of the specification's example. *)
Definition array_1234 : list float :=
  [float_of_Z 1; float_of_Z 2; float_of_Z 3; float_of_Z 4].

(** The empty range of a store of extent 0. *)
Definition empty_range : Rect := mkRect 0 (-1).

(** A store over the empty range [0, -1] with [mem] behind its accessor:
    whatever [mem] holds lies outside the slice, which has no element. *)
Definition empty_slice_over (mem : gmap Z float) : Store :=
  mkStore FLOAT_LT 1 empty_range mem.

(** The context of a point task whose input is an empty slice. *)
Definition empty_slice_context (mem : gmap Z float) : TaskContext :=
  mkTaskContext [empty_slice_over mem] [] [fresh_accumulator].

(** A reduction store of the wrong element type. *)
Definition double_accumulator : Store :=
  mkStore DOUBLE_LT 1 (mkRect 0 0) {[ 0 := fzero ]}.

(** An accumulator that already holds 5.0. *)
Definition accumulator_5 : Store :=
  mkStore FLOAT_LT 1 (mkRect 0 0) {[ 0 := float_of_Z 5 ]}.

(** The same slice [0,1] seen through a larger instance, next to other
    stores and with an accumulator that already holds a value. *)
Definition crowded_context : TaskContext :=
  mkTaskContext
    [mkStore FLOAT_LT 1 (mkRect 0 1) (map_seqZ 0 array_1234); double_accumulator]
    [fresh_accumulator]
    [mkStore FLOAT_LT 1 (mkRect 0 0) {[ 0 := float_of_Z 9 ]}; fresh_accumulator].

(** 2^24 followed by two ones: adding 1.0 to 2^24 rounds back to 2^24. *)
Definition array_rounding : list float :=
  [float_of_Z 16777216; float_of_Z 1; float_of_Z 1].

(** 2^127, the largest power of two among the floats. *)
Definition two_127 : float := S754_finite false 8388608 104.

(** * Properties of the model *)

(** ** Conversions *)

Lemma to_size_t_small u : 0 <= u < 2 ^ 64 -> to_size_t u = u.
Proof. intros H. unfold to_size_t. apply Z.mod_small. exact H. Qed.

Lemma to_coord_small u : 0 <= u < 2 ^ 63 -> to_coord u = u.
Proof.
  intros H. unfold to_coord. destruct (Z.ltb_spec u (2 ^ 63)); [reflexivity | lia].
Qed.

Lemma size_t_succ_small u : 0 <= u < 2 ^ 64 - 1 -> size_t_succ u = u + 1.
Proof. intros H. unfold size_t_succ. apply Z.mod_small. lia. Qed.

Lemma size_t_succ_range u : 0 <= size_t_succ u < 2 ^ 64.
Proof. unfold size_t_succ. apply Z.mod_pos_bound. lia. Qed.

(** ** The loop *)

Lemma bind_Done {A B} (tr : list event) (a : A) (k : A -> M B) :
  bind (tr, Done a) k = (tr ++ trace (k a), outcome (k a)).
Proof. unfold bind, trace, outcome. destruct (k a); reflexivity. Qed.

(** On array bounds the loop reads the segment in ascending order and
    folds it into [total]; it ends after one test per element and one
    more. *)
Lemma sum_loop_segment input h :
  0 <= h < 2 ^ 63 ->
  forall xs i total fuel,
    0 <= i < 2 ^ 63 ->
    Forall2 (fun p x => cells input !! p = Some x) (seqZ i (h + 1 - i)) xs ->
    (length xs < fuel)%nat ->
    sum_loop fuel input h i total =
      (map (EvRead (InputStore 0)) (seqZ i (h + 1 - i)), Done (fold_left fadd xs total)).
Proof.
  intros Hh xs. induction xs as [|x xs IH]; intros i total fuel Hi Hseg Hfuel.
  - apply Forall2_nil_inv_r in Hseg.
    assert (h < i) as Hlt.
    { destruct (Z.lt_ge_cases h i) as [|Hle]; [assumption|].
      rewrite seqZ_cons in Hseg by lia. discriminate. }
    rewrite Hseg. destruct fuel as [|fuel]; [simpl in Hfuel; lia|]. simpl.
    rewrite to_size_t_small by lia.
    destruct (Z.leb_spec i h); [lia | reflexivity].
  - assert (i <= h) as Hle.
    { destruct (Z.le_gt_cases i h) as [|Hgt]; [assumption|].
      rewrite seqZ_nil in Hseg by lia. inversion Hseg. }
    rewrite seqZ_cons in Hseg |- * by lia.
    apply Forall2_cons_1 in Hseg as [Hx Hrest].
    destruct fuel as [|fuel]; [simpl in Hfuel; lia|]. simpl in Hfuel.
    cbn [sum_loop]. rewrite to_size_t_small by lia.
    destruct (Z.leb_spec i h); [|lia].
    rewrite to_coord_small by lia. unfold acc_read. rewrite Hx.
    rewrite bind_Done, size_t_succ_small by lia.
    replace (Z.pred (h + 1 - i)) with (h + 1 - (i + 1)) in Hrest |- * by lia.
    replace (Z.succ i) with (i + 1) in Hrest |- * by lia.
    destruct (Z.eq_dec i (2 ^ 63 - 1)) as [Hmax|Hmax].
    + (* the last representable index: the segment ends here *)
      assert (h = i) as -> by lia.
      rewrite seqZ_nil in Hrest |- * by lia.
      apply Forall2_nil_inv_l in Hrest. subst xs.
      destruct fuel as [|fuel]; [simpl in Hfuel; lia|]. cbn [sum_loop].
      rewrite to_size_t_small by lia.
      destruct (Z.leb_spec (i + 1) i); [lia | reflexivity].
    + rewrite (IH (i + 1) (fadd total x) fuel) by (assumption || lia).
      reflexivity.
Qed.

(** One turn of the loop. *)
Lemma sum_loop_step fuel input h i total :
  sum_loop (S fuel) input h i total =
    if i <=? to_size_t h then
      match cells input !! to_coord i with
      | Some x =>
          (EvRead (InputStore 0) (to_coord i)
             :: trace (sum_loop fuel input h (size_t_succ i) (fadd total x)),
           outcome (sum_loop fuel input h (size_t_succ i) (fadd total x)))
      | None => ([EvRead (InputStore 0) (to_coord i)], Fault)
      end
    else ([], Done total).
Proof.
  cbn [sum_loop]. destruct (i <=? to_size_t h); [|reflexivity].
  unfold acc_read. destruct (cells input !! to_coord i); [|reflexivity].
  rewrite bind_Done. reflexivity.
Qed.

(** The loop only ever reads, and only through the accessor of input
    store 0. *)
Lemma sum_loop_reads_only fuel input h :
  forall i total e,
    e ∈ trace (sum_loop fuel input h i total) ->
    exists p, e = EvRead (InputStore 0) p.
Proof.
  induction fuel as [|fuel IH]; intros i total e He.
  - inversion He.
  - rewrite sum_loop_step in He.
    destruct (i <=? to_size_t h); [|inversion He].
    destruct (cells input !! to_coord i) as [x|]; cbn [trace fst] in He;
      apply elem_of_cons in He as [->|He]; eauto.
    inversion He.
Qed.

(** On array bounds every read of the loop stays inside [i, h], whatever
    the fuel and whatever the memory holds. *)
Lemma sum_loop_reads_in_bounds input h :
  0 <= h < 2 ^ 63 ->
  forall fuel i total p s,
    0 <= i < 2 ^ 64 ->
    EvRead s p ∈ trace (sum_loop fuel input h i total) ->
    i <= p <= h.
Proof.
  intros Hh fuel. induction fuel as [|fuel IH]; intros i total p s Hi He.
  - inversion He.
  - rewrite sum_loop_step, to_size_t_small in He by lia.
    destruct (Z.leb_spec i h) as [Hle|]; [|inversion He].
    rewrite to_coord_small in He by lia.
    destruct (cells input !! i) as [x|]; cbn [trace fst] in He;
      apply elem_of_cons in He as [Heq|He];
      try (injection Heq as _ ->; lia); [|inversion He].
    rewrite size_t_succ_small in He by lia.
    apply IH in He; lia.
Qed.

(** When [hi] converts to the largest [size_t], the test [i <= hi] can
    never fail: the loop does not come to an end. *)
Lemma sum_loop_no_exit input h :
  to_size_t h = 2 ^ 64 - 1 ->
  forall fuel i total t,
    0 <= i < 2 ^ 64 ->
    outcome (sum_loop fuel input h i total) <> Done t.
Proof.
  intros Hh fuel. induction fuel as [|fuel IH]; intros i total t Hi.
  - discriminate.
  - rewrite sum_loop_step, Hh.
    destruct (Z.leb_spec i (2 ^ 64 - 1)); [|lia].
    destruct (cells input !! to_coord i) as [x|]; [|discriminate].
    cbn [outcome snd]. apply IH. apply size_t_succ_range.
Qed.

(** ** The task body, step by step *)

Lemma cpu_variant_unfold fuel context :
  cpu_variant fuel context =
    match inputs context !! 0%nat with
    | None => ([], Fault)
    | Some input =>
        let log := EvLog (lo (shape input)) (hi (shape input)) in
        match sum_loop fuel input (hi (shape input))
                (to_size_t (lo (shape input))) fzero with
        | (reads, Done total) => after_loop context input reads total
        | (reads, AssertionFailed a) => (log :: reads, AssertionFailed a)
        | (reads, Fault) => (log :: reads, Fault)
        | (reads, OutOfFuel) => (log :: reads, OutOfFuel)
        end
    end.
Proof.
  unfold cpu_variant, vec_at, after_loop.
  destruct (inputs context !! 0%nat) as [input|]; [|reflexivity].
  cbn [ret bind log_info app].
  destruct (sum_loop _ _ _ _ _) as [reads [total| | |]]; try reflexivity.
  destruct (reductions context !! 0%nat) as [output|]; cbn; [|by rewrite app_nil_r].
  unfold assert, acc_reduce.
  destruct (bool_decide _); cbn; [|by rewrite app_nil_r].
  destruct (dim output =? 1); cbn; [|by rewrite app_nil_r].
  destruct (rect_eqb (shape output) (mkRect 0 0)); cbn; [|by rewrite app_nil_r].
  destruct (cells output !! 0); cbn; reflexivity.
Qed.

(** ** Complete runs *)

Lemma reduced_values_reads s ps : reduced_values (map (EvRead s) ps) = [].
Proof. induction ps as [|p ps IH]; [reflexivity | exact IH]. Qed.

Lemma side_effects_reads s ps : side_effects (map (EvRead s) ps) = [].
Proof. induction ps as [|p ps IH]; [reflexivity | exact IH]. Qed.

Lemma reduced_values_log l h tr :
  reduced_values (EvLog l h :: tr) = reduced_values tr.
Proof. reflexivity. Qed.

Lemma loop_reduces_nothing fuel input h i total :
  reduced_values (trace (sum_loop fuel input h i total)) = [].
Proof.
  pose proof (sum_loop_reads_only fuel input h i total) as Hreads.
  induction (trace (sum_loop fuel input h i total)) as [|e reads IH]; [reflexivity|].
  destruct (Hreads e) as [p ->]; [left|].
  cbn. apply IH. intros e' He'. apply Hreads. right. exact He'.
Qed.

Lemma contribution_run_trace r total : contribution (run_trace r total) = Some total.
Proof.
  unfold contribution, run_trace, reduced_values. cbn [omap list_omap].
  rewrite omap_app.
  fold (reduced_values (map (EvRead (InputStore 0)) (seqZ (lo r) (hi r + 1 - lo r)))).
  rewrite reduced_values_reads. reflexivity.
Qed.

Lemma side_effects_run_trace r total :
  side_effects (run_trace r total) =
    [EvLog (lo r) (hi r); EvReduce (ReductionStore 0) 0 total].
Proof.
  unfold side_effects, run_trace. cbn [List.filter is_read negb].
  rewrite List.filter_app.
  fold (side_effects (map (EvRead (InputStore 0)) (seqZ (lo r) (hi r + 1 - lo r)))).
  rewrite side_effects_reads. reflexivity.
Qed.

(** After the loop has come to an end with [total], an accumulator that
    passes the checks receives the reduce. *)
Lemma after_loop_accumulator context input output reads total a :
  reductions context !! 0%nat = Some output ->
  accumulator output a ->
  after_loop context input reads total =
    (EvLog (lo (shape input)) (hi (shape input))
       :: reads ++ [EvReduce (ReductionStore 0) 0 total],
     Done (mkTaskContext (inputs context) (outputs context)
             (<[0%nat := mkStore FLOAT_LT 1 (mkRect 0 0)
                           (<[0 := fadd a total]> (cells output))]>
                (reductions context)))).
Proof.
  intros Hout (Hcode & Hdim & Hshape & Hcell).
  unfold after_loop. rewrite Hout, Hcode, Hdim, Hshape, Hcell. reflexivity.
Qed.

(** A whole invocation on array bounds, a backed segment and a proper
    accumulator. *)
Lemma cpu_variant_run context input output xs a fuel :
  inputs context !! 0%nat = Some input ->
  reductions context !! 0%nat = Some output ->
  index_bounds (shape input) ->
  segment input = Some xs ->
  accumulator output a ->
  (length xs < fuel)%nat ->
  cpu_variant fuel context =
    (run_trace (shape input) (sequential_sum xs),
     Done (mkTaskContext (inputs context) (outputs context)
             (<[0%nat := mkStore FLOAT_LT 1 (mkRect 0 0)
                           (<[0 := fadd a (sequential_sum xs)]> (cells output))]>
                (reductions context)))).
Proof.
  intros Hin Hout [Hlo Hhi] Hseg Hacc Hfuel.
  rewrite cpu_variant_unfold, Hin. cbn zeta.
  rewrite to_size_t_small by lia.
  rewrite (sum_loop_segment input (hi (shape input)) Hhi xs) by
    (try apply mapM_Some_1; assumption).
  apply (after_loop_accumulator _ _ _ _ _ _ Hout Hacc).
Qed.

Lemma accumulator_value_insert context st :
  (0 < length (reductions context))%nat ->
  accumulator_value
    (mkTaskContext (inputs context) (outputs context)
       (<[0%nat := st]> (reductions context))) = cells st !! 0.
Proof.
  intros Hlen. unfold accumulator_value. cbn [reductions].
  rewrite list_lookup_insert_eq by exact Hlen. reflexivity.
Qed.

Lemma segment_length st xs :
  segment st = Some xs -> length xs = Z.to_nat (hi (shape st) + 1 - lo (shape st)).
Proof.
  intros H. apply mapM_Some_1, Forall2_length in H.
  rewrite length_seqZ in H. lia.
Qed.

(** ** Slices and partitions *)

Lemma slice_length {A} (arr : list A) l h :
  0 <= l -> l <= h + 1 -> h < Z.of_nat (length arr) ->
  length (slice arr l h) = Z.to_nat (h + 1 - l).
Proof.
  intros Hl Hlh Hh. unfold slice. rewrite length_take_le; [reflexivity|].
  rewrite length_drop. lia.
Qed.

Lemma map_seqZ_backs (start : Z) (xs : list float) :
  Forall2 (fun p x => (map_seqZ start xs : gmap Z float) !! p = Some x)
          (seqZ start (Z.of_nat (length xs))) xs.
Proof.
  apply Forall2_same_length_lookup_2.
  - rewrite length_seqZ. lia.
  - intros i p x Hp Hx. apply lookup_seqZ in Hp as [-> _].
    apply lookup_map_seqZ_Some_inv. exact Hx.
Qed.

Lemma segment_slice_store arr r :
  0 <= lo r -> lo r <= hi r + 1 -> hi r < Z.of_nat (length arr) ->
  segment (slice_store arr r) = Some (slice arr (lo r) (hi r)).
Proof.
  intros Hl Hlh Hh. unfold segment. apply mapM_Some_2. cbn [slice_store shape cells].
  pose proof (map_seqZ_backs (lo r) (slice arr (lo r) (hi r))) as H.
  rewrite slice_length in H by assumption.
  rewrite Z2Nat.id in H by lia. exact H.
Qed.

(** A point task over a segment inside the array contributes the
    sequential sum of its slice. *)
Lemma point_contribution_slice fuel arr r :
  0 <= lo r -> lo r <= hi r -> hi r < Z.of_nat (length arr) ->
  Z.of_nat (length arr) <= 2 ^ 63 ->
  (length arr < fuel)%nat ->
  point_contribution fuel arr r = Some (sequential_sum (slice arr (lo r) (hi r))).
Proof.
  intros Hl Hlh Hh Hmax Hfuel. unfold point_contribution.
  rewrite (cpu_variant_run (point_context arr r) (slice_store arr r) fresh_accumulator
             (slice arr (lo r) (hi r)) fzero fuel).
  - apply contribution_run_trace.
  - reflexivity.
  - reflexivity.
  - unfold index_bounds. cbn [slice_store shape]. lia.
  - apply segment_slice_store; (assumption || lia).
  - unfold accumulator. cbn. repeat split; reflexivity.
  - rewrite slice_length by (assumption || lia). lia.
Qed.

Lemma tiles_le start stop segs : tiles start stop segs -> start <= stop.
Proof.
  revert start. induction segs as [|r rest IH]; intros start; cbn.
  - lia.
  - intros (Hlo & Hle & Hrest). apply IH in Hrest. lia.
Qed.

(** The slices of a partition, put end to end, are the array. *)
Lemma tiles_slices {A} (arr : list A) segs :
  forall start,
    0 <= start ->
    tiles start (Z.of_nat (length arr)) segs ->
    concat (map (fun r => slice arr (lo r) (hi r)) segs) = drop (Z.to_nat start) arr /\
    Forall (fun r => 0 <= lo r /\ lo r <= hi r /\ hi r < Z.of_nat (length arr)) segs.
Proof.
  induction segs as [|r rest IH]; intros start Hstart; cbn.
  - intros ->. rewrite Nat2Z.id, drop_all. split; [reflexivity | constructor].
  - intros (Hlo & Hle & Hrest). pose proof (tiles_le _ _ _ Hrest) as Hstop.
    destruct (IH (hi r + 1)) as [Hcat Hall]; [lia | assumption |].
    split; [|constructor; [lia | assumption]].
    rewrite Hcat. unfold slice. rewrite Hlo.
    replace (Z.to_nat (hi r + 1)) with (Z.to_nat start + Z.to_nat (hi r + 1 - start))%nat
      by lia.
    rewrite <- drop_drop. apply take_drop.
Qed.

(** Every point task of a partition contributes the sequential sum of
    its slice. *)
Lemma launch_contributions fuel arr segs :
  tiles 0 (Z.of_nat (length arr)) segs ->
  Z.of_nat (length arr) <= 2 ^ 63 ->
  (length arr < fuel)%nat ->
  mapM (point_contribution fuel arr) segs
    = Some (map (fun r => sequential_sum (slice arr (lo r) (hi r))) segs).
Proof.
  intros Htiles Hmax Hfuel.
  destruct (tiles_slices arr segs 0 ltac:(lia) Htiles) as [_ Hbounds].
  apply mapM_Some_2, Forall2_fmap_r, Forall_Forall2_diag.
  eapply Forall_impl; [exact Hbounds|]. intros r (Hl & Hle & Hh).
  apply point_contribution_slice; assumption.
Qed.

(** ** Exact additions *)

Lemma digits2_pos_size p : digits2_pos p = Pos.size p.
Proof. induction p; cbn; congruence. Qed.

Lemma iter_pos_iter {A} (f : A -> A) p :
  forall x, SpecFloat.iter_pos f p x = Pos.iter f x p.
Proof.
  induction p as [p IH|p IH|]; intros x; cbn.
  - rewrite !IH, !Pos.iter_swap. reflexivity.
  - rewrite !IH. reflexivity.
  - reflexivity.
Qed.

Lemma shl_value q p : Zpos (Pos.iter xO q p) = Zpos q * 2 ^ Zpos p.
Proof.
  induction p as [|p IH] using Pos.peano_ind.
  - cbn. lia.
  - rewrite Pos.iter_succ, Pos2Z.inj_xO, IH, Pos2Z.inj_succ, Z.pow_succ_r by lia. lia.
Qed.

Lemma shl_size q p : Pos.size (Pos.iter xO q p) = (Pos.size q + p)%positive.
Proof.
  induction p as [|p IH] using Pos.peano_ind.
  - cbn. lia.
  - rewrite Pos.iter_succ. cbn. rewrite IH. lia.
Qed.

Lemma shr_shl q p :
  Pos.iter shr_1 (Build_shr_record (Zpos (Pos.iter xO q p)) false false) p
  = Build_shr_record (Zpos q) false false.
Proof.
  induction p as [|p IH] using Pos.peano_ind.
  - reflexivity.
  - rewrite Pos.iter_succ_r, Pos.iter_succ. cbn [shr_1 orb]. exact IH.
Qed.

Lemma shr_fexp_canonical q e :
  Pos.size q = 24%positive -> -149 <= e ->
  shr_fexp prec emax (Zpos q) e loc_Exact
    = (Build_shr_record (Zpos q) false false, e).
Proof.
  intros Hq He. unfold shr_fexp, Zdigits2, fexp, emin, prec, emax.
  rewrite digits2_pos_size, Hq.
  replace (Z.max (24 + e - 24) (3 - 128 - 24) - e) with 0 by lia.
  reflexivity.
Qed.

(** A mantissa of full width at an exponent in range is left as it is. *)
Lemma round_aux_canonical q e :
  Pos.size q = 24%positive -> -149 <= e <= 104 ->
  binary_round_aux prec emax false (Zpos q) e loc_Exact = S754_finite false q e.
Proof.
  intros Hq He. unfold binary_round_aux.
  rewrite shr_fexp_canonical by (assumption || lia).
  cbn [shr_m loc_of_shr_record round_nearest_even].
  rewrite shr_fexp_canonical by (assumption || lia).
  cbn [shr_m]. unfold prec, emax.
  destruct (Z.leb_spec e (128 - 24)); [reflexivity | lia].
Qed.

(** A mantissa with [s] trailing zeros beyond full width is shifted right
    by [s], exactly. *)
Lemma round_aux_shr q s e :
  Pos.size q = 24%positive -> -149 <= e + Zpos s <= 104 ->
  binary_round_aux prec emax false (Zpos (Pos.iter xO q s)) e loc_Exact
    = S754_finite false q (e + Zpos s).
Proof.
  intros Hq He. unfold binary_round_aux. unfold shr_fexp at 1.
  unfold Zdigits2, fexp, emin, prec, emax.
  rewrite digits2_pos_size, shl_size, Hq.
  replace (Z.max (Zpos (24 + s) + e - 24) (3 - 128 - 24) - e) with (Zpos s) by lia.
  cbn [shr shr_record_of_loc].
  rewrite iter_pos_iter, shr_shl.
  cbn [shr_m loc_of_shr_record round_nearest_even].
  change (shr_fexp 24 128) with (shr_fexp prec emax).
  rewrite shr_fexp_canonical by (assumption || lia).
  cbn [shr_m]. unfold prec, emax.
  destruct (Z.leb_spec (e + Zpos s) (128 - 24)); [reflexivity | lia].
Qed.

(** Rounding a mantissa that is [n] times a power of two, [n] of at most
    24 bits, is exact. *)
Lemma round_exact M n k e :
  Zpos M = Zpos n * 2 ^ k -> 0 <= k ->
  (Pos.size n <= 24)%positive ->
  -149 <= e + k + Zpos (Pos.size n) - 24 <= 104 ->
  binary_round prec emax false M e
    = S754_finite false (Z.to_pos (Zpos n * 2 ^ (24 - Zpos (Pos.size n))))
                  (e + k + Zpos (Pos.size n) - 24).
Proof.
  intros HM Hk Hn He.
  assert (Pos.size M = Z.to_pos (Zpos (Pos.size n) + k)) as HsizeM.
  { destruct k as [|k|k]; [| |lia].
    - rewrite Z.pow_0_r, Z.mul_1_r in HM. injection HM as ->. cbn. lia.
    - rewrite <- shl_value in HM. injection HM as ->. rewrite shl_size. cbn. lia. }
  set (q := Z.to_pos (Zpos n * 2 ^ (24 - Zpos (Pos.size n)))).
  assert (Pos.size q = 24%positive) as Hq.
  { unfold q. destruct (24 - Zpos (Pos.size n)) as [|d|d] eqn:Hd; [| |lia].
    - rewrite Z.pow_0_r, Z.mul_1_r. cbn. lia.
    - rewrite <- shl_value. cbn [Z.to_pos]. rewrite shl_size. lia. }
  unfold binary_round, shl_align, fexp, emin.
  rewrite digits2_pos_size, HsizeM. unfold prec, emax.
  rewrite Z2Pos.id by lia.
  replace (Z.max (Zpos (Pos.size n) + k + e - 24) (3 - 128 - 24) - e)
    with (Zpos (Pos.size n) + k - 24) by lia.
  replace (Z.max (Zpos (Pos.size n) + k + e - 24) (3 - 128 - 24))
    with (e + k + Zpos (Pos.size n) - 24) by lia.
  destruct (Zpos (Pos.size n) + k - 24) as [|s|d] eqn:Hs.
  - (* already of full width *)
    assert (M = q) as ->.
    { unfold q. replace (24 - Zpos (Pos.size n)) with k by lia.
      rewrite <- HM. reflexivity. }
    change (binary_round_aux 24 128) with (binary_round_aux prec emax).
    rewrite round_aux_canonical by (assumption || lia). f_equal. lia.
  - (* wider: shift right *)
    assert (M = Pos.iter xO q s) as ->.
    { apply Pos2Z.inj. rewrite shl_value, HM. unfold q.
      rewrite Z2Pos.id by (apply Z.mul_pos_pos; [lia | apply Z.pow_pos_nonneg; lia]).
      rewrite <- Z.mul_assoc, <- Z.pow_add_r by lia. f_equal. f_equal. lia. }
    change (binary_round_aux 24 128) with (binary_round_aux prec emax).
    rewrite round_aux_shr by (assumption || lia). f_equal. lia.
  - (* narrower: shift left *)
    assert (Pos.iter xO M d = q) as ->.
    { apply Pos2Z.inj. rewrite shl_value, HM. unfold q.
      rewrite Z2Pos.id by (apply Z.mul_pos_pos; [lia | apply Z.pow_pos_nonneg; lia]).
      rewrite <- Z.mul_assoc, <- Z.pow_add_r by lia. f_equal. f_equal. lia. }
    change (binary_round_aux 24 128) with (binary_round_aux prec emax).
    apply round_aux_canonical; [assumption | lia].
Qed.

Lemma size_le_24 n : Zpos n < 2 ^ 24 -> (Pos.size n <= 24)%positive.
Proof.
  intros Hn. pose proof (Pos.size_le n) as Hle.
  apply Pos2Z.pos_le_pos in Hle. rewrite Pos2Z.inj_pow in Hle.
  rewrite (Pos2Z.inj_xO n) in Hle.
  assert (2 ^ Zpos (Pos.size n) < 2 ^ 25) as Hlt
    by (change (2 ^ 25) with (2 * 2 ^ 24); lia).
  apply Z.pow_lt_mono_r_iff in Hlt; lia.
Qed.

Lemma size_mono p q : (p <= q)%positive -> (Pos.size p <= Pos.size q)%positive.
Proof.
  intros Hpq. pose proof (Pos.size_le p) as Hle. pose proof (Pos.size_gt q) as Hgt.
  apply Pos2Z.pos_le_pos in Hle. apply Pos2Z.pos_lt_pos in Hgt.
  rewrite Pos2Z.inj_pow in Hle, Hgt. rewrite (Pos2Z.inj_xO p) in Hle.
  assert (2 ^ Zpos (Pos.size p) < 2 ^ (Zpos (Pos.size q) + 1)) as Hlt.
  { rewrite Z.pow_add_r by lia. lia. }
  apply Z.pow_lt_mono_r_iff in Hlt; lia.
Qed.

Lemma float_of_Z_norm n :
  (Pos.size n <= 24)%positive -> float_of_Z (Zpos n) = norm n.
Proof.
  intros Hn. unfold float_of_Z, binary_normalize, norm.
  rewrite (round_exact n n 0 0) by (rewrite ?Z.pow_0_r; lia).
  reflexivity.
Qed.

Lemma norm_mantissa n :
  (Pos.size n <= 24)%positive ->
  Zpos (Z.to_pos (Zpos n * 2 ^ (24 - Zpos (Pos.size n))))
    = Zpos n * 2 ^ (24 - Zpos (Pos.size n)).
Proof.
  intros Hn. apply Z2Pos.id. apply Z.mul_pos_pos; [lia|]. apply Z.pow_pos_nonneg; lia.
Qed.

Lemma shl_align_value m e e' :
  e' <= e -> Zpos (fst (shl_align m e e')) = Zpos m * 2 ^ (e - e').
Proof.
  intros Hle. unfold shl_align. destruct (e' - e) as [|d|d] eqn:Hd; [|lia|].
  - replace (e - e') with 0 by lia. cbn [fst]. lia.
  - cbn [fst]. rewrite shl_value. f_equal. f_equal. lia.
Qed.

Lemma fadd_norm a b :
  (Pos.size (a + b) <= 24)%positive -> fadd (norm a) (norm b) = norm (a + b).
Proof.
  intros Hab.
  assert (Pos.size a <= Pos.size (a + b))%positive as Ha by (apply size_mono; lia).
  assert (Pos.size b <= Pos.size (a + b))%positive as Hb by (apply size_mono; lia).
  unfold fadd, SFadd, norm, cond_Zopp.
  set (ea := Zpos (Pos.size a) - 24). set (eb := Zpos (Pos.size b) - 24).
  set (ma := Z.to_pos (Zpos a * 2 ^ (24 - Zpos (Pos.size a)))).
  set (mb := Z.to_pos (Zpos b * 2 ^ (24 - Zpos (Pos.size b)))).
  pose proof (shl_align_value ma ea (Z.min ea eb) ltac:(lia)) as Hma.
  pose proof (shl_align_value mb eb (Z.min ea eb) ltac:(lia)) as Hmb.
  unfold ma in Hma at 2. unfold mb in Hmb at 2.
  rewrite norm_mantissa in Hma, Hmb by lia.
  rewrite <- Z.mul_assoc, <- Z.pow_add_r in Hma, Hmb by lia.
  replace (24 - Zpos (Pos.size a) + (ea - Z.min ea eb)) with (- Z.min ea eb) in Hma
    by lia.
  replace (24 - Zpos (Pos.size b) + (eb - Z.min ea eb)) with (- Z.min ea eb) in Hmb
    by lia.
  rewrite <- Pos2Z.inj_add. cbn [binary_normalize].
  rewrite (round_exact _ (a + b) (- Z.min ea eb) (Z.min ea eb)).
  - f_equal. lia.
  - rewrite Pos2Z.inj_add, Hma, Hmb. lia.
  - lia.
  - assumption.
  - lia.
Qed.

(** Adding two non-negative integers whose sum has at most 24 bits is
    exact. *)
Lemma fadd_float_of_Z a b :
  0 <= a -> 0 <= b -> a + b < 2 ^ 24 ->
  fadd (float_of_Z a) (float_of_Z b) = float_of_Z (a + b).
Proof.
  intros Ha Hb Hab. destruct a as [|a|a]; [| |lia]; destruct b as [|b|b]; try lia.
  - reflexivity.
  - rewrite Z.add_0_l, float_of_Z_norm by (apply size_le_24; lia). reflexivity.
  - rewrite Z.add_0_r, float_of_Z_norm by (apply size_le_24; lia). reflexivity.
  - assert (Pos.size (a + b) <= 24)%positive as Hs by (apply size_le_24; lia).
    assert (Pos.size a <= 24)%positive by (apply size_le_24; lia).
    assert (Pos.size b <= 24)%positive by (apply size_le_24; lia).
    rewrite <- Pos2Z.inj_add, !float_of_Z_norm by assumption.
    apply fadd_norm. assumption.
Qed.

Lemma integer_sum_cons n ns : integer_sum (n :: ns) = n + integer_sum ns.
Proof. reflexivity. Qed.

Lemma integer_sum_app ns ms :
  integer_sum (ns ++ ms) = integer_sum ns + integer_sum ms.
Proof.
  induction ns as [|n ns IH]; [reflexivity|].
  rewrite <- app_comm_cons, !integer_sum_cons, IH. lia.
Qed.

Lemma integer_sum_nonneg ns : Forall (fun n => 0 <= n) ns -> 0 <= integer_sum ns.
Proof.
  induction 1 as [|n ns Hn _ IH]; [reflexivity|]. rewrite integer_sum_cons. lia.
Qed.

Lemma integer_sum_concat cs :
  integer_sum (concat cs) = integer_sum (map integer_sum cs).
Proof.
  induction cs as [|c cs IH]; [reflexivity|].
  cbn [concat map]. rewrite integer_sum_app, IH. reflexivity.
Qed.

Lemma integer_sum_slice ns l h :
  Forall (fun n => 0 <= n) ns -> 0 <= integer_sum (slice ns l h) <= integer_sum ns.
Proof.
  intros Hns. unfold slice.
  assert (integer_sum ns
          = integer_sum (take (Z.to_nat l) ns) + integer_sum (drop (Z.to_nat l) ns))
    as H1 by (rewrite <- integer_sum_app, take_drop; reflexivity).
  assert (integer_sum (drop (Z.to_nat l) ns)
          = integer_sum (take (Z.to_nat (h + 1 - l)) (drop (Z.to_nat l) ns))
            + integer_sum (drop (Z.to_nat (h + 1 - l)) (drop (Z.to_nat l) ns))) as H2
    by (rewrite <- integer_sum_app, take_drop; reflexivity).
  pose proof (integer_sum_nonneg (take (Z.to_nat l) ns) (Forall_take _ _ _ Hns)).
  pose proof (integer_sum_nonneg _ (Forall_take _ (Z.to_nat (h + 1 - l)) _
                                (Forall_drop _ (Z.to_nat l) _ Hns))).
  pose proof (integer_sum_nonneg _ (Forall_drop _ (Z.to_nat (h + 1 - l)) _
                                (Forall_drop _ (Z.to_nat l) _ Hns))).
  lia.
Qed.

Lemma slice_map {A B} (f : A -> B) arr l h :
  slice (map f arr) l h = map f (slice arr l h).
Proof. unfold slice. rewrite List.skipn_map, List.firstn_map. reflexivity. Qed.

(** Below 2^24 the float sum of non-negative integers is their exact
    sum. *)
Lemma fold_fadd_integers ns :
  forall s, 0 <= s -> Forall (fun n => 0 <= n) ns -> s + integer_sum ns < 2 ^ 24 ->
    fold_left fadd (map float_of_Z ns) (float_of_Z s) = float_of_Z (s + integer_sum ns).
Proof.
  induction ns as [|n ns IH]; intros s Hs Hns Hsum; cbn [map fold_left].
  - cbn. rewrite Z.add_0_r. reflexivity.
  - apply Forall_cons_1 in Hns as [Hn Hns].
    pose proof (integer_sum_nonneg ns Hns) as Hrest.
    rewrite integer_sum_cons in *.
    rewrite fadd_float_of_Z by lia.
    rewrite IH by (assumption || lia). f_equal. lia.
Qed.

Lemma sequential_sum_integers ns :
  Forall (fun n => 0 <= n) ns -> integer_sum ns < 2 ^ 24 ->
  sequential_sum (map float_of_Z ns) = float_of_Z (integer_sum ns).
Proof.
  intros Hns Hsum. unfold sequential_sum.
  change fzero with (float_of_Z 0). rewrite fold_fadd_integers by (assumption || lia).
  reflexivity.
Qed.

(** * Claims *)

(** ** C1: the local total is the sequential sum of the segment *)

(** C1. For a non-empty segment [lo <= hi] of an array (both bounds are
    array indices), backed by the input store, the invocation runs to
    completion on any fuel above the number of elements, and the value
    it hands to [reduce] is the sequential sum of the elements at
    lo, lo+1, ..., hi, added in ascending order starting from 0; the
    accumulator ends at its initial value plus that sum. *)
Theorem cpu_variant_sums_segment context input output xs a fuel :
  inputs context !! 0%nat = Some input ->
  reductions context !! 0%nat = Some output ->
  index_bounds (shape input) ->
  lo (shape input) <= hi (shape input) ->
  segment input = Some xs ->
  accumulator output a ->
  (length xs < fuel)%nat ->
  exists context',
    outcome (cpu_variant fuel context) = Done context' /\
    contribution (trace (cpu_variant fuel context)) = Some (sequential_sum xs) /\
    accumulator_value context' = Some (fadd a (sequential_sum xs)) /\
    length xs = Z.to_nat (hi (shape input) - lo (shape input) + 1) /\
    forall k x, xs !! k = Some x ->
      cells input !! (lo (shape input) + Z.of_nat k) = Some x.
Proof.
  intros Hin Hout Hb Hne Hseg Hacc Hfuel.
  rewrite (cpu_variant_run context input output xs a fuel) by assumption.
  eexists. split; [reflexivity|]. cbn [trace outcome fst snd].
  split; [apply contribution_run_trace|].
  split.
  { rewrite accumulator_value_insert by (eapply lookup_lt_Some; eassumption).
    cbn [cells]. apply lookup_insert_eq. }
  split.
  { rewrite (segment_length _ _ Hseg). f_equal. lia. }
  intros k x Hk. apply mapM_Some_1 in Hseg.
  destruct (Forall2_lookup_r _ _ _ _ _ Hseg Hk) as (p & Hp & Hcell).
  apply lookup_seqZ in Hp as [-> _]. exact Hcell.
Qed.

Lemma cpu_variant_sums_segment_witness :
  exists context',
    outcome (cpu_variant 3 (point_context array_1234 (mkRect 0 1))) = Done context' /\
    contribution (trace (cpu_variant 3 (point_context array_1234 (mkRect 0 1))))
      = Some (sequential_sum [float_of_Z 1; float_of_Z 2]) /\
    accumulator_value context'
      = Some (fadd fzero (sequential_sum [float_of_Z 1; float_of_Z 2])) /\
    length [float_of_Z 1; float_of_Z 2] = Z.to_nat (1 - 0 + 1) /\
    forall k x, [float_of_Z 1; float_of_Z 2] !! k = Some x ->
      cells (slice_store array_1234 (mkRect 0 1)) !! (0 + Z.of_nat k) = Some x.
Proof.
  apply (cpu_variant_sums_segment
           (point_context array_1234 (mkRect 0 1))
           (slice_store array_1234 (mkRect 0 1))
           fresh_accumulator [float_of_Z 1; float_of_Z 2] fzero 3).
  - reflexivity.
  - reflexivity.
  - unfold index_bounds. simpl. lia.
  - simpl. lia.
  - vm_compute. reflexivity.
  - unfold accumulator. simpl. repeat split; reflexivity.
  - simpl. lia.
Defined.

(** ** C2: an empty index range *)

(** An empty range whose upper bound is still an array index is handled
    as the loop intends: no read, and the contribution is 0. *)
Lemma empty_range_above_zero context input output a fuel :
  inputs context !! 0%nat = Some input ->
  reductions context !! 0%nat = Some output ->
  index_bounds (shape input) ->
  hi (shape input) < lo (shape input) ->
  accumulator output a ->
  (0 < fuel)%nat ->
  trace (cpu_variant fuel context) =
    [EvLog (lo (shape input)) (hi (shape input)); EvReduce (ReductionStore 0) 0 fzero].
Proof.
  intros Hin Hout Hb Hlt Hacc Hfuel.
  rewrite (cpu_variant_run context input output [] a fuel); try assumption.
  - unfold run_trace. rewrite seqZ_nil by lia. reflexivity.
  - unfold segment. rewrite seqZ_nil by lia. reflexivity.
Qed.

(** C2, on the empty range [0, -1] of a store of extent 0. Summing zero
    elements should cost no read and contribute 0.0. Here [hi] converts
    to the largest [size_t], so the test [0 <= hi] succeeds and the loop
    reads index 0, outside the (empty) store; and whatever memory lies
    behind the accessor, no amount of fuel brings the invocation to
    completion, so nothing is ever contributed. *)
Theorem empty_range_is_read :
  (forall fuel arr,
     cpu_variant (S fuel) (point_context arr empty_range) =
       ([EvLog 0 (-1); EvRead (InputStore 0) 0], Fault)) /\
  (forall fuel mem context',
     outcome (cpu_variant fuel
                (mkTaskContext [mkStore FLOAT_LT 1 empty_range mem] []
                               [fresh_accumulator]))
       <> Done context') /\
  (forall fuel mem,
     contribution (trace (cpu_variant fuel
                (mkTaskContext [mkStore FLOAT_LT 1 empty_range mem] []
                               [fresh_accumulator]))) = None).
Proof.
  split; [|split].
  - intros fuel arr. rewrite cpu_variant_unfold.
    cbn [point_context inputs lookup list_lookup slice_store shape lo hi empty_range].
    rewrite sum_loop_step. reflexivity.
  - intros fuel mem context'. rewrite cpu_variant_unfold.
    cbn [inputs lookup list_lookup shape lo hi empty_range].
    pose proof (sum_loop_no_exit (mkStore FLOAT_LT 1 (mkRect 0 (-1)) mem) (-1)
                  eq_refl fuel (to_size_t 0) fzero) as Hloop.
    destruct (sum_loop _ _ _ _ _) as [reads [total| | |]]; try discriminate.
    exfalso. apply (Hloop total); [vm_compute; split; congruence | reflexivity].
  - intros fuel mem. rewrite cpu_variant_unfold.
    cbn [inputs lookup list_lookup shape lo hi empty_range].
    pose proof (sum_loop_no_exit (mkStore FLOAT_LT 1 (mkRect 0 (-1)) mem) (-1)
                  eq_refl fuel (to_size_t 0) fzero) as Hloop.
    pose proof (loop_reduces_nothing fuel (mkStore FLOAT_LT 1 (mkRect 0 (-1)) mem)
                  (-1) (to_size_t 0) fzero) as Hnone.
    destruct (sum_loop _ _ _ _ _) as [reads r]. cbn [trace fst] in Hnone.
    destruct r as [total| | |];
      try (unfold contribution; cbn [trace fst]; rewrite reduced_values_log, Hnone;
           reflexivity).
    exfalso. apply (Hloop total); [vm_compute; split; congruence | reflexivity].
Qed.

(** ** C3: the example of the specification *)

(** C3. On [1.0, 2.0, 3.0, 4.0] split into the point tasks [0,1] and
    [2,3], the first contributes exactly 3.0, the second exactly 7.0, and
    the two contributions add up to exactly 10.0. *)
Theorem example_two_point_tasks :
  point_contribution 3 array_1234 (mkRect 0 1) = Some (S754_finite false 12582912 (-22)) /\
  point_contribution 3 array_1234 (mkRect 2 3) = Some (S754_finite false 14680064 (-21)) /\
  fadd (S754_finite false 12582912 (-22)) (S754_finite false 14680064 (-21))
    = S754_finite false 10485760 (-20) /\
  launch 3 array_1234 [mkRect 0 1; mkRect 2 3] = Some (S754_finite false 10485760 (-20)) /\
  float_of_Z 3 = S754_finite false 12582912 (-22) /\
  float_of_Z 7 = S754_finite false 14680064 (-21) /\
  float_of_Z 10 = S754_finite false 10485760 (-20).
Proof. vm_compute. repeat split; reflexivity. Qed.

(** ** C4: the assertions on the reduction store *)

Lemma rect_eqb_eq a b : rect_eqb a b = true <-> a = b.
Proof.
  unfold rect_eqb. rewrite andb_true_iff, !Z.eqb_eq.
  destruct a, b; cbn. split; [intros [-> ->]; reflexivity | intros [= -> ->]; auto].
Qed.

Lemma sum_loop_no_assertion fuel input h :
  forall i total a, outcome (sum_loop fuel input h i total) <> AssertionFailed a.
Proof.
  induction fuel as [|fuel IH]; intros i total a; [discriminate|].
  rewrite sum_loop_step. destruct (i <=? to_size_t h); [|discriminate].
  destruct (cells input !! to_coord i); [apply IH | discriminate].
Qed.

(** How the part after the loop ends, by the state of the reduction
    store. *)
Lemma after_loop_assertion context input reads total a :
  outcome (after_loop context input reads total) = AssertionFailed a ->
  exists output,
    reductions context !! 0%nat = Some output /\
    match a with
    | AssertCode => code output <> FLOAT_LT
    | AssertDim => code output = FLOAT_LT /\ dim output <> 1
    | AssertShape =>
        code output = FLOAT_LT /\ dim output = 1 /\ shape output <> mkRect 0 0
    end /\
    trace (after_loop context input reads total) =
      EvLog (lo (shape input)) (hi (shape input)) :: reads.
Proof.
  unfold after_loop. destruct (reductions context !! 0%nat) as [output|]; [|discriminate].
  intros H. exists output. split; [reflexivity|]. revert H.
  destruct (bool_decide_reflect (code output = FLOAT_LT)) as [Hcode|Hcode];
    [|intros [= <-]; split; [assumption | reflexivity]].
  destruct (Z.eqb_spec (dim output) 1) as [Hdim|Hdim];
    [|intros [= <-]; split; [split; assumption | reflexivity]].
  destruct (rect_eqb (shape output) (mkRect 0 0)) eqn:Hshape.
  - destruct (cells output !! 0); discriminate.
  - intros [= <-]. split; [|reflexivity].
    repeat split; try assumption.
    intros Heq. apply rect_eqb_eq in Heq. congruence.
Qed.

Lemma after_loop_violation context input output reads total :
  reductions context !! 0%nat = Some output ->
  outcome (after_loop context input reads total) =
    if bool_decide (code output = FLOAT_LT) then
      if dim output =? 1 then
        if rect_eqb (shape output) (mkRect 0 0) then
          match cells output !! 0 with
          | Some a =>
              Done (mkTaskContext (inputs context) (outputs context)
                      (<[0%nat := mkStore (code output) (dim output) (shape output)
                                    (<[0 := fadd a total]> (cells output))]>
                         (reductions context)))
          | None => Fault
          end
        else AssertionFailed AssertShape
      else AssertionFailed AssertDim
    else AssertionFailed AssertCode.
Proof.
  intros Hout. unfold after_loop. rewrite Hout.
  destruct (bool_decide _), (dim output =? 1),
    (rect_eqb (shape output) (mkRect 0 0)), (cells output !! 0); reflexivity.
Qed.

(** C4. Once the loop has summed a backed segment on array bounds, the
    invocation is aborted exactly when the reduction store violates one
    of the three checked preconditions, tested in the order type code,
    rank, shape; an aborted invocation has performed no reduce; and in
    any invocation whatsoever an abort means that one of the three
    preconditions is violated. *)
Theorem assertions_guard_the_reduce context input output xs fuel :
  inputs context !! 0%nat = Some input ->
  reductions context !! 0%nat = Some output ->
  index_bounds (shape input) ->
  segment input = Some xs ->
  (length xs < fuel)%nat ->
  (outcome (cpu_variant fuel context) = AssertionFailed AssertCode
     <-> code output <> FLOAT_LT) /\
  (outcome (cpu_variant fuel context) = AssertionFailed AssertDim
     <-> code output = FLOAT_LT /\ dim output <> 1) /\
  (outcome (cpu_variant fuel context) = AssertionFailed AssertShape
     <-> code output = FLOAT_LT /\ dim output = 1 /\ shape output <> mkRect 0 0) /\
  (forall fuel' context' a,
     outcome (cpu_variant fuel' context') = AssertionFailed a ->
     exists output',
       reductions context' !! 0%nat = Some output' /\
       ~ preconditions output' /\
       reduced_values (trace (cpu_variant fuel' context')) = []).
Proof.
  intros Hin Hout [Hlo Hhi] Hseg Hfuel.
  assert (outcome (cpu_variant fuel context) =
          outcome (after_loop context input
                     (map (EvRead (InputStore 0))
                        (seqZ (lo (shape input)) (hi (shape input) + 1 - lo (shape input))))
                     (sequential_sum xs))) as Hrun.
  { rewrite cpu_variant_unfold, Hin. cbn zeta.
    rewrite to_size_t_small by lia.
    rewrite (sum_loop_segment input (hi (shape input)) Hhi xs) by
      (try apply mapM_Some_1; assumption).
    reflexivity. }
  rewrite Hrun, (after_loop_violation _ _ _ _ _ Hout).
  assert (rect_eqb (shape output) (mkRect 0 0) = false -> shape output <> mkRect 0 0)
    as Hneq.
  { intros Hf Heq. apply rect_eqb_eq in Heq. congruence. }
  split; [|split; [|split]].
  1-3: destruct (bool_decide_reflect (code output = FLOAT_LT)) as [Hc|Hc];
       destruct (Z.eqb_spec (dim output) 1) as [Hd|Hd];
       destruct (rect_eqb (shape output) (mkRect 0 0)) eqn:Hs;
       try apply rect_eqb_eq in Hs; try specialize (Hneq eq_refl);
       destruct (cells output !! 0);
       split; intros H; try discriminate H; try reflexivity; intuition congruence.
  - clear. intros fuel context a. rewrite cpu_variant_unfold.
    destruct (inputs context !! 0%nat) as [input|]; [|discriminate]. cbn zeta.
    pose proof (sum_loop_no_assertion fuel input (hi (shape input))
                  (to_size_t (lo (shape input))) fzero) as Hno.
    pose proof (loop_reduces_nothing fuel input (hi (shape input))
                  (to_size_t (lo (shape input))) fzero) as Hnone.
    destruct (sum_loop _ _ _ _ _) as [reads [total|a'| |]]; try discriminate.
    + intros H.
      destruct (after_loop_assertion _ _ _ _ _ H) as (output & Hout & Hviol & Htr).
      exists output. split; [assumption|]. split.
      * intros (Hc & Hd & Hs). destruct a; intuition congruence.
      * rewrite Htr, reduced_values_log. exact Hnone.
    + exfalso. apply (Hno a'). reflexivity.
Qed.

Lemma assertions_guard_the_reduce_witness :
  outcome (cpu_variant 3
             (mkTaskContext [slice_store array_1234 (mkRect 0 1)] []
                            [double_accumulator]))
    = AssertionFailed AssertCode.
Proof.
  apply (assertions_guard_the_reduce
           (mkTaskContext [slice_store array_1234 (mkRect 0 1)] [] [double_accumulator])
           (slice_store array_1234 (mkRect 0 1)) double_accumulator
           [float_of_Z 1; float_of_Z 2] 3).
  - reflexivity.
  - reflexivity.
  - unfold index_bounds. simpl. lia.
  - vm_compute. reflexivity.
  - simpl. lia.
  - simpl. discriminate.
Defined.

(** ** C5: what an invocation does to the world *)

(** Against C5 as stated. The reduce is not the only effect: an
    invocation first emits its log record; and an invocation stopped by
    an assertion reduces nothing, so its accumulator is written zero
    times, not once. *)
Lemma log_record_is_an_effect :
  side_effects (trace (cpu_variant 3 (point_context array_1234 (mkRect 0 1))))
    = [EvLog 0 1; EvReduce (ReductionStore 0) 0 (S754_finite false 12582912 (-22))] /\
  ~ (exists v,
       side_effects (trace (cpu_variant 3 (point_context array_1234 (mkRect 0 1))))
         = [EvReduce (ReductionStore 0) 0 v]) /\
  cpu_variant 3 (mkTaskContext [slice_store array_1234 (mkRect 0 1)] []
                               [double_accumulator])
    = ([EvLog 0 1; EvRead (InputStore 0) 0; EvRead (InputStore 0) 1],
       AssertionFailed AssertCode).
Proof.
  split; [vm_compute; reflexivity|]. split; [|vm_compute; reflexivity].
  intros [v Hv]. vm_compute in Hv. discriminate Hv.
Qed.

(** C5 (amended). An invocation on array bounds, a backed segment and an
    accumulator that passes the assertions runs to completion; besides
    the log record it emits, its only effect is one additive reduce of
    the computed sum into index 0 of reduction store 0. The input
    stores, the output stores and every other reduction store are left
    as they were, and of the accumulator only the cell at index 0
    changes. *)
Theorem completed_invocation_effects context input output xs a fuel :
  inputs context !! 0%nat = Some input ->
  reductions context !! 0%nat = Some output ->
  index_bounds (shape input) ->
  segment input = Some xs ->
  accumulator output a ->
  (length xs < fuel)%nat ->
  exists context',
    outcome (cpu_variant fuel context) = Done context' /\
    side_effects (trace (cpu_variant fuel context)) =
      [EvLog (lo (shape input)) (hi (shape input));
       EvReduce (ReductionStore 0) 0 (sequential_sum xs)] /\
    reduced_values (trace (cpu_variant fuel context)) = [sequential_sum xs] /\
    inputs context' = inputs context /\
    outputs context' = outputs context /\
    length (reductions context') = length (reductions context) /\
    (forall n, n <> 0%nat -> reductions context' !! n = reductions context !! n) /\
    exists output',
      reductions context' !! 0%nat = Some output' /\
      code output' = code output /\ dim output' = dim output /\
      shape output' = shape output /\
      cells output' = <[0 := fadd a (sequential_sum xs)]> (cells output).
Proof.
  intros Hin Hout Hb Hseg Hacc Hfuel.
  rewrite (cpu_variant_run context input output xs a fuel) by assumption.
  eexists. split; [reflexivity|]. cbn [trace outcome fst snd inputs outputs reductions].
  split; [apply side_effects_run_trace|].
  split.
  { pose proof (contribution_run_trace (shape input) (sequential_sum xs)) as Hc.
    unfold contribution in Hc. unfold run_trace in *.
    rewrite reduced_values_log in *. unfold reduced_values in *.
    rewrite omap_app in *.
    fold (reduced_values (map (EvRead (InputStore 0))
            (seqZ (lo (shape input)) (hi (shape input) + 1 - lo (shape input))))).
    rewrite reduced_values_reads. reflexivity. }
  split; [reflexivity|]. split; [reflexivity|].
  split; [apply length_insert|].
  split; [intros n Hn; apply list_lookup_insert_ne; congruence|].
  destruct Hacc as (Hc & Hd & Hs & _).
  eexists. split.
  { apply list_lookup_insert_eq. eapply lookup_lt_Some; eassumption. }
  cbn. rewrite Hc, Hd, Hs. repeat split; reflexivity.
Qed.

Lemma completed_invocation_effects_witness :
  exists context',
    outcome (cpu_variant 3 (point_context array_1234 (mkRect 2 3))) = Done context' /\
    side_effects (trace (cpu_variant 3 (point_context array_1234 (mkRect 2 3)))) =
      [EvLog 2 3;
       EvReduce (ReductionStore 0) 0 (sequential_sum [float_of_Z 3; float_of_Z 4])] /\
    reduced_values (trace (cpu_variant 3 (point_context array_1234 (mkRect 2 3))))
      = [sequential_sum [float_of_Z 3; float_of_Z 4]] /\
    inputs context' = [slice_store array_1234 (mkRect 2 3)] /\
    outputs context' = [] /\
    length (reductions context') = 1%nat /\
    (forall n, n <> 0%nat ->
       reductions context' !! n = [fresh_accumulator] !! n) /\
    exists output',
      reductions context' !! 0%nat = Some output' /\
      code output' = FLOAT_LT /\ dim output' = 1 /\
      shape output' = mkRect 0 0 /\
      cells output' =
        <[0 := fadd fzero (sequential_sum [float_of_Z 3; float_of_Z 4])]>
          (cells fresh_accumulator).
Proof.
  apply (completed_invocation_effects
           (point_context array_1234 (mkRect 2 3))
           (slice_store array_1234 (mkRect 2 3))
           fresh_accumulator [float_of_Z 3; float_of_Z 4] fzero 3).
  - reflexivity.
  - reflexivity.
  - unfold index_bounds. simpl. lia.
  - vm_compute. reflexivity.
  - unfold accumulator. simpl. repeat split; reflexivity.
  - simpl. lia.
Defined.

(** ** C6: partitions of a logical array *)

(** Against C6 as stated. Float addition rounds, so the grouping
    matters: on [16777216.0, 1.0, 1.0] the sequential sum is 16777216.0
    (each 1.0 is rounded away), while the point tasks over [0,0] and
    [1,2] contribute 16777216.0 and 2.0, which combine to 16777218.0. *)
Lemma partition_changes_the_sum :
  tiles 0 3 [mkRect 0 0; mkRect 1 2] /\
  sequential_sum array_rounding = S754_finite false 8388608 1 /\
  launch 4 array_rounding [mkRect 0 2] = Some (S754_finite false 8388608 1) /\
  point_contribution 4 array_rounding (mkRect 0 0) = Some (S754_finite false 8388608 1) /\
  point_contribution 4 array_rounding (mkRect 1 2) = Some (S754_finite false 8388608 (-22)) /\
  launch 4 array_rounding [mkRect 0 0; mkRect 1 2] = Some (S754_finite false 8388609 1) /\
  launch 4 array_rounding [mkRect 0 0; mkRect 1 2] <> Some (sequential_sum array_rounding).
Proof.
  split; [cbn; lia|]. vm_compute. repeat split; try reflexivity. discriminate.
Qed.

(** C6 (amended). For an array of non-negative integer values whose
    total is below 2^24, so that no addition rounds, and any partition
    of its index range into non-empty contiguous segments, every point
    task contributes the total of its slice, and the contributions
    combine to the sequential sum of the whole array, which is the
    total of the array, however it was partitioned. *)
Theorem partition_sum_of_small_integers ns segs fuel :
  Forall (fun n => 0 <= n) ns ->
  integer_sum ns < 2 ^ 24 ->
  tiles 0 (Z.of_nat (length ns)) segs ->
  Z.of_nat (length ns) <= 2 ^ 63 ->
  (length ns < fuel)%nat ->
  mapM (point_contribution fuel (map float_of_Z ns)) segs
    = Some (map (fun r => float_of_Z (integer_sum (slice ns (lo r) (hi r)))) segs) /\
  launch fuel (map float_of_Z ns) segs = Some (sequential_sum (map float_of_Z ns)) /\
  sequential_sum (map float_of_Z ns) = float_of_Z (integer_sum ns).
Proof.
  intros Hns Hsum Htiles Hmax Hfuel.
  destruct (tiles_slices ns segs 0 ltac:(lia) Htiles) as [Hcat _].
  assert (mapM (point_contribution fuel (map float_of_Z ns)) segs
          = Some (map (fun r => float_of_Z (integer_sum (slice ns (lo r) (hi r)))) segs)) as Hcs.
  { rewrite launch_contributions by (rewrite ?length_map; assumption).
    f_equal. apply List.map_ext. intros r. rewrite slice_map.
    apply sequential_sum_integers.
    - unfold slice. apply Forall_take, Forall_drop. exact Hns.
    - pose proof (integer_sum_slice ns (lo r) (hi r) Hns). lia. }
  split; [exact Hcs|]. rewrite (sequential_sum_integers ns Hns Hsum).
  split; [|reflexivity].
  unfold launch. rewrite Hcs. cbn [mbind option_bind]. f_equal.
  rewrite <- (map_map (fun r => integer_sum (slice ns (lo r) (hi r))) float_of_Z).
  rewrite <- (map_map (fun r => slice ns (lo r) (hi r)) integer_sum).
  assert (integer_sum (map integer_sum (map (fun r => slice ns (lo r) (hi r)) segs))
          = integer_sum ns) as Htot
    by (rewrite <- integer_sum_concat, Hcat; reflexivity).
  rewrite sequential_sum_integers, Htot; [reflexivity | | lia].
  clear Hcs Hcat Htot Htiles. induction segs as [|r segs IH]; cbn [map]; constructor.
  - apply (integer_sum_slice ns (lo r) (hi r) Hns).
  - exact IH.
Qed.

Lemma partition_sum_of_small_integers_witness :
  mapM (point_contribution 5 (map float_of_Z [1; 2; 3; 4]))
       [mkRect 0 0; mkRect 1 2; mkRect 3 3]
    = Some (map (fun r => float_of_Z (integer_sum (slice [1; 2; 3; 4] (lo r) (hi r))))
                [mkRect 0 0; mkRect 1 2; mkRect 3 3]) /\
  launch 5 (map float_of_Z [1; 2; 3; 4]) [mkRect 0 0; mkRect 1 2; mkRect 3 3]
    = Some (sequential_sum (map float_of_Z [1; 2; 3; 4])) /\
  sequential_sum (map float_of_Z [1; 2; 3; 4]) = float_of_Z (integer_sum [1; 2; 3; 4]).
Proof.
  apply (partition_sum_of_small_integers [1; 2; 3; 4]
           [mkRect 0 0; mkRect 1 2; mkRect 3 3] 5).
  - repeat (apply List.Forall_cons; [lia|]). apply List.Forall_nil.
  - vm_compute. reflexivity.
  - cbn. lia.
  - cbn. lia.
  - cbn. lia.
Defined.

(** *** The algebraic reason *)

Section ExactAddition.

(** A set of floats on which addition behaves like exact addition:
    closed, associative, with 0 as a left identity. *)
Variable P : float -> Prop.
Hypothesis P_zero : P fzero.
Hypothesis P_closed : forall a b, P a -> P b -> P (fadd a b).
Hypothesis P_assoc :
  forall a b c, P a -> P b -> P c -> fadd (fadd a b) c = fadd a (fadd b c).
Hypothesis P_left_id : forall a, P a -> fadd fzero a = a.

Lemma fold_left_fadd_shift ys :
  forall s t, P s -> P t -> Forall P ys ->
    fold_left fadd ys (fadd s t) = fadd s (fold_left fadd ys t).
Proof using P_closed P_assoc.
  induction ys as [|y ys IH]; intros s t Hs Ht Hys; cbn [fold_left]; [reflexivity|].
  apply Forall_cons_1 in Hys as [Hy Hys].
  rewrite P_assoc by assumption. apply IH; auto.
Qed.

Lemma sequential_sum_in ys : forall t, P t -> Forall P ys -> P (fold_left fadd ys t).
Proof using P_closed.
  induction ys as [|y ys IH]; intros t Ht Hys; cbn [fold_left]; [assumption|].
  apply Forall_cons_1 in Hys as [Hy Hys]. apply IH; auto.
Qed.

Lemma fold_left_fadd_chunk ys s :
  P s -> Forall P ys -> ys <> [] ->
  fold_left fadd ys s = fadd s (sequential_sum ys).
Proof using P_closed P_assoc P_left_id.
  intros Hs Hys Hne. destruct ys as [|y ys]; [contradiction|].
  apply Forall_cons_1 in Hys as [Hy Hys].
  unfold sequential_sum. cbn [fold_left]. rewrite (P_left_id y Hy).
  rewrite fold_left_fadd_shift by assumption. reflexivity.
Qed.

(** Summing the chunks one by one and then their sums gives the sum of
    the whole. *)
Lemma sequential_sum_chunks chunks :
  forall s, P s ->
    Forall (fun c => c <> [] /\ Forall P c) chunks ->
    fold_left fadd (map sequential_sum chunks) s = fold_left fadd (concat chunks) s.
Proof using P_zero P_closed P_assoc P_left_id.
  induction chunks as [|c chunks IH]; intros s Hs Hall;
    cbn [map concat fold_left]; [reflexivity|].
  apply Forall_cons_1 in Hall as [[Hne Hc] Hall].
  rewrite fold_left_app, (fold_left_fadd_chunk c s) by assumption.
  apply IH; [|assumption].
  apply P_closed; [assumption|]. apply sequential_sum_in; assumption.
Qed.

End ExactAddition.

(** The same holds on any set of floats where addition behaves like exact
    addition (closed, associative, 0 a left identity): over such a set
    the contributions of any partition combine to the sequential sum of
    the whole array. *)
Lemma partition_sum_on_exact_addition (P : float -> Prop) arr segs fuel :
  P fzero ->
  (forall a b, P a -> P b -> P (fadd a b)) ->
  (forall a b c, P a -> P b -> P c -> fadd (fadd a b) c = fadd a (fadd b c)) ->
  (forall a, P a -> fadd fzero a = a) ->
  Forall P arr ->
  tiles 0 (Z.of_nat (length arr)) segs ->
  Z.of_nat (length arr) <= 2 ^ 63 ->
  (length arr < fuel)%nat ->
  mapM (point_contribution fuel arr) segs
    = Some (map (fun r => sequential_sum (slice arr (lo r) (hi r))) segs) /\
  launch fuel arr segs = Some (sequential_sum arr).
Proof.
  intros Hzero Hclosed Hassoc Hid Harr Htiles Hmax Hfuel.
  destruct (tiles_slices arr segs 0 ltac:(lia) Htiles) as [Hcat Hbounds].
  pose proof (launch_contributions fuel arr segs Htiles Hmax Hfuel) as Hcs.
  split; [exact Hcs|].
  unfold launch. rewrite Hcs. cbn. f_equal.
  rewrite <- (map_map (fun r => slice arr (lo r) (hi r)) sequential_sum).
  unfold sequential_sum at 1.
  assert (Forall (fun c => c <> [] /\ Forall P c)
                 (map (fun r => slice arr (lo r) (hi r)) segs)) as Hchunks.
  { clear Hcs Hcat Htiles. induction Hbounds as [|r rest (Hl & Hle & Hh) _ IH];
      cbn [map]; constructor; [|exact IH].
    split.
    - intros Hnil. apply (f_equal length) in Hnil.
      rewrite slice_length in Hnil by lia. cbn in Hnil. lia.
    - unfold slice. apply Forall_take, Forall_drop. exact Harr. }
  rewrite (sequential_sum_chunks P Hzero Hclosed Hassoc Hid _ fzero Hzero Hchunks).
  rewrite Hcat. reflexivity.
Qed.

Example exact_addition_on_three_values :
  mapM (point_contribution 4 [two_127; fzero; two_127]) [mkRect 0 0; mkRect 1 2]
    = Some (map (fun r => sequential_sum (slice [two_127; fzero; two_127] (lo r) (hi r)))
                [mkRect 0 0; mkRect 1 2]) /\
  launch 4 [two_127; fzero; two_127] [mkRect 0 0; mkRect 1 2]
    = Some (sequential_sum [two_127; fzero; two_127]).
Proof.
  apply (partition_sum_on_exact_addition
           (fun x => x = fzero \/ x = two_127 \/ x = S754_infinity false)).
  - left. reflexivity.
  - intros a b [-> | [-> | ->]] [-> | [-> | ->]]; vm_compute; auto.
  - intros a b c [-> | [-> | ->]] [-> | [-> | ->]] [-> | [-> | ->]]; vm_compute; reflexivity.
  - intros a [-> | [-> | ->]]; vm_compute; reflexivity.
  - repeat (apply List.Forall_cons; [auto|]). apply List.Forall_nil.
  - cbn. lia.
  - cbn. lia.
  - cbn. lia.
Qed.

(** ** C7: the contribution is a function of the slice *)

(** C7, on the empty range [0, -1]. Two invocations are given the same
    slice: the same bounds and the same elements, namely none. The loop
    test succeeds all the same, so what each invocation does depends on
    memory outside its slice (one faults on its first read, the other
    reads a cell and goes on to the next), and neither ever completes,
    on any fuel and whatever that memory holds: on this slice the task
    is neither total nor a function of the slice. *)
Theorem empty_slice_decides_nothing :
  segment (empty_slice_over ∅) = Some [] /\
  segment (empty_slice_over {[ 0 := float_of_Z 1 ]}) = Some [] /\
  shape (empty_slice_over ∅) = shape (empty_slice_over {[ 0 := float_of_Z 1 ]}) /\
  (forall fuel,
     cpu_variant (S (S fuel)) (empty_slice_context ∅)
       = ([EvLog 0 (-1); EvRead (InputStore 0) 0], Fault)) /\
  (forall fuel,
     cpu_variant (S (S fuel)) (empty_slice_context {[ 0 := float_of_Z 1 ]})
       = ([EvLog 0 (-1); EvRead (InputStore 0) 0; EvRead (InputStore 0) 1], Fault)) /\
  (forall fuel mem context',
     outcome (cpu_variant fuel (empty_slice_context mem)) <> Done context') /\
  (forall fuel mem,
     contribution (trace (cpu_variant fuel (empty_slice_context mem))) = None).
Proof.
  split; [reflexivity|]. split; [reflexivity|]. split; [reflexivity|].
  split; [|split; [|split]].
  - intros fuel. rewrite cpu_variant_unfold.
    cbn [empty_slice_context inputs lookup list_lookup empty_slice_over shape lo hi
           empty_range].
    rewrite sum_loop_step. reflexivity.
  - intros fuel. rewrite cpu_variant_unfold.
    cbn [empty_slice_context inputs lookup list_lookup empty_slice_over shape lo hi
           empty_range].
    rewrite !sum_loop_step. reflexivity.
  - intros fuel mem context'. rewrite cpu_variant_unfold.
    cbn [empty_slice_context inputs lookup list_lookup empty_slice_over shape lo hi
           empty_range].
    pose proof (sum_loop_no_exit (mkStore FLOAT_LT 1 (mkRect 0 (-1)) mem) (-1)
                  eq_refl fuel (to_size_t 0) fzero) as Hloop.
    destruct (sum_loop _ _ _ _ _) as [reads [total| | |]]; try discriminate.
    exfalso. apply (Hloop total); [vm_compute; split; congruence | reflexivity].
  - intros fuel mem. rewrite cpu_variant_unfold.
    cbn [empty_slice_context inputs lookup list_lookup empty_slice_over shape lo hi
           empty_range].
    pose proof (sum_loop_no_exit (mkStore FLOAT_LT 1 (mkRect 0 (-1)) mem) (-1)
                  eq_refl fuel (to_size_t 0) fzero) as Hloop.
    pose proof (loop_reduces_nothing fuel (mkStore FLOAT_LT 1 (mkRect 0 (-1)) mem)
                  (-1) (to_size_t 0) fzero) as Hnone.
    destruct (sum_loop _ _ _ _ _) as [reads r]. cbn [trace fst] in Hnone.
    destruct r as [total| | |];
      try (unfold contribution; cbn [trace fst]; rewrite reduced_values_log, Hnone;
           reflexivity).
    exfalso. apply (Hloop total); [vm_compute; split; congruence | reflexivity].
Qed.

(** X13. On array bounds the contribution is a function of the slice:
    two invocations whose input stores have the same array bounds
    and hold the same elements on the segment both run to completion
    (on any fuel above the number of elements), perform the same events
    and contribute the same value, the sequential sum of the segment,
    whatever else differs between their contexts: memory outside the
    segment, further stores, the initial values of the accumulators. *)
Theorem contribution_determined_by_slice
    c1 c2 in1 in2 out1 out2 xs a1 a2 fuel1 fuel2 :
  inputs c1 !! 0%nat = Some in1 ->
  inputs c2 !! 0%nat = Some in2 ->
  shape in1 = shape in2 ->
  index_bounds (shape in1) ->
  segment in1 = Some xs ->
  segment in2 = Some xs ->
  reductions c1 !! 0%nat = Some out1 -> accumulator out1 a1 ->
  reductions c2 !! 0%nat = Some out2 -> accumulator out2 a2 ->
  (length xs < fuel1)%nat ->
  (length xs < fuel2)%nat ->
  (exists c1' c2',
     outcome (cpu_variant fuel1 c1) = Done c1' /\
     outcome (cpu_variant fuel2 c2) = Done c2') /\
  trace (cpu_variant fuel1 c1) = trace (cpu_variant fuel2 c2) /\
  contribution (trace (cpu_variant fuel1 c1)) = Some (sequential_sum xs) /\
  contribution (trace (cpu_variant fuel2 c2)) = Some (sequential_sum xs).
Proof.
  intros Hin1 Hin2 Hshape Hb Hseg1 Hseg2 Hout1 Hacc1 Hout2 Hacc2 Hf1 Hf2.
  rewrite (cpu_variant_run c1 in1 out1 xs a1 fuel1) by assumption.
  rewrite (cpu_variant_run c2 in2 out2 xs a2 fuel2) by (congruence || assumption).
  cbn [trace outcome fst snd]. rewrite <- Hshape.
  split; [eauto|]. split; [reflexivity|].
  split; apply contribution_run_trace.
Qed.

Lemma contribution_determined_by_slice_witness :
  (exists c1' c2',
     outcome (cpu_variant 3 (point_context array_1234 (mkRect 0 1))) = Done c1' /\
     outcome (cpu_variant 7 crowded_context) = Done c2') /\
  trace (cpu_variant 3 (point_context array_1234 (mkRect 0 1)))
    = trace (cpu_variant 7 crowded_context) /\
  contribution (trace (cpu_variant 3 (point_context array_1234 (mkRect 0 1))))
    = Some (sequential_sum [float_of_Z 1; float_of_Z 2]) /\
  contribution (trace (cpu_variant 7 crowded_context))
    = Some (sequential_sum [float_of_Z 1; float_of_Z 2]).
Proof.
  apply (contribution_determined_by_slice
           (point_context array_1234 (mkRect 0 1)) crowded_context
           (slice_store array_1234 (mkRect 0 1))
           (mkStore FLOAT_LT 1 (mkRect 0 1) (map_seqZ 0 array_1234))
           fresh_accumulator
           (mkStore FLOAT_LT 1 (mkRect 0 0) {[ 0 := float_of_Z 9 ]})
           [float_of_Z 1; float_of_Z 2] fzero (float_of_Z 9) 3 7).
  - reflexivity.
  - reflexivity.
  - reflexivity.
  - unfold index_bounds. simpl. lia.
  - vm_compute. reflexivity.
  - vm_compute. reflexivity.
  - reflexivity.
  - unfold accumulator. simpl. repeat split; reflexivity.
  - reflexivity.
  - unfold accumulator. simpl. repeat split; reflexivity.
  - simpl. lia.
  - simpl. lia.
Defined.

(** ** C9: the accumulator is only reduced into *)

(** C9. For a backed segment on array bounds there is one value, the
    sequential sum of the segment, such that whatever accumulator the
    invocation is given (any initial value, any further reduction
    stores), the invocation completes, contributes that value, leaves
    the accumulator at its initial value plus that value, and performs
    no read other than through the accessor of input store 0. *)
Theorem accumulator_is_write_only ins outs input xs :
  ins !! 0%nat = Some input ->
  index_bounds (shape input) ->
  segment input = Some xs ->
  exists total,
    total = sequential_sum xs /\
    forall output a rest fuel,
      accumulator output a ->
      (length xs < fuel)%nat ->
      (exists context',
         outcome (cpu_variant fuel (mkTaskContext ins outs (output :: rest)))
           = Done context' /\
         accumulator_value context' = Some (fadd a total)) /\
      contribution (trace (cpu_variant fuel (mkTaskContext ins outs (output :: rest))))
        = Some total /\
      forall s p,
        EvRead s p ∈ trace (cpu_variant fuel (mkTaskContext ins outs (output :: rest))) ->
        s = InputStore 0.
Proof.
  intros Hin Hb Hseg. exists (sequential_sum xs). split; [reflexivity|].
  intros output a rest fuel Hacc Hfuel.
  rewrite (cpu_variant_run (mkTaskContext ins outs (output :: rest)) input output xs a fuel)
    by (assumption || reflexivity).
  cbn [trace outcome fst snd]. split; [|split].
  - eexists. split; [reflexivity|].
    unfold accumulator_value. cbn. apply lookup_insert_eq.
  - apply contribution_run_trace.
  - intros s p Hp. unfold run_trace in Hp.
    apply elem_of_cons in Hp as [Hp|Hp]; [discriminate|].
    apply elem_of_app in Hp as [Hp|Hp].
    + apply list_elem_of_fmap in Hp as (q & Hq & _). congruence.
    + apply list_elem_of_singleton in Hp. discriminate.
Qed.

Lemma accumulator_is_write_only_witness :
  exists total,
    total = sequential_sum [float_of_Z 3; float_of_Z 4] /\
    (exists context',
       outcome (cpu_variant 3
                  (mkTaskContext [slice_store array_1234 (mkRect 2 3)] []
                                 [accumulator_5; fresh_accumulator]))
         = Done context' /\
       accumulator_value context' = Some (fadd (float_of_Z 5) total)) /\
    contribution (trace (cpu_variant 3
                  (mkTaskContext [slice_store array_1234 (mkRect 2 3)] []
                                 [accumulator_5; fresh_accumulator])))
      = Some total.
Proof.
  destruct (accumulator_is_write_only
              [slice_store array_1234 (mkRect 2 3)] []
              (slice_store array_1234 (mkRect 2 3)) [float_of_Z 3; float_of_Z 4])
    as (total & Htotal & Hany).
  - reflexivity.
  - unfold index_bounds. simpl. lia.
  - vm_compute. reflexivity.
  - exists total. split; [exact Htotal|].
    destruct (Hany accumulator_5 (float_of_Z 5) [fresh_accumulator] 3%nat)
      as (Hdone & Hcontrib & _).
    + unfold accumulator. simpl. repeat split; reflexivity.
    + simpl. lia.
    + split; assumption.
Defined.

(** ** C10: the reads stay inside the slice *)

Lemma after_loop_trace context input reads total :
  exists tail,
    trace (after_loop context input reads total) =
      EvLog (lo (shape input)) (hi (shape input)) :: reads ++ tail /\
    (tail = [] \/ tail = [EvReduce (ReductionStore 0) 0 total]).
Proof.
  unfold after_loop.
  destruct (reductions context !! 0%nat) as [output|];
    [|exists []; rewrite app_nil_r; auto].
  destruct (bool_decide (code output = FLOAT_LT)), (dim output =? 1),
    (rect_eqb (shape output) (mkRect 0 0)), (cells output !! 0);
    solve [ exists [EvReduce (ReductionStore 0) 0 total]; split; [reflexivity | auto]
          | exists []; rewrite app_nil_r; auto ].
Qed.

(** Every trace of the task is the log record, then the reads of the
    loop, then at most one reduce into index 0 of reduction store 0. *)
Lemma cpu_variant_trace fuel context input :
  inputs context !! 0%nat = Some input ->
  exists tail,
    trace (cpu_variant fuel context) =
      EvLog (lo (shape input)) (hi (shape input))
        :: trace (sum_loop fuel input (hi (shape input))
                    (to_size_t (lo (shape input))) fzero) ++ tail /\
    (tail = [] \/ exists total, tail = [EvReduce (ReductionStore 0) 0 total]).
Proof.
  intros Hin. rewrite cpu_variant_unfold, Hin. cbn zeta.
  destruct (sum_loop _ _ _ _ _) as [reads [total|a| |]]; cbn [trace fst];
    try solve [exists []; rewrite app_nil_r; auto].
  destruct (after_loop_trace context input reads total) as (tail & Htr & [-> | ->]);
    eauto.
Qed.

Lemma after_loop_trace_ext c1 c2 input reads total :
  reductions c1 !! 0%nat = reductions c2 !! 0%nat ->
  trace (after_loop c1 input reads total) = trace (after_loop c2 input reads total).
Proof.
  intros H. unfold after_loop. rewrite H.
  destruct (reductions c2 !! 0%nat) as [output|]; [|reflexivity].
  destruct (bool_decide (code output = FLOAT_LT)), (dim output =? 1),
    (rect_eqb (shape output) (mkRect 0 0)), (cells output !! 0); reflexivity.
Qed.

(** C10. On array bounds, in any invocation (whatever the fuel, the
    memory and the reduction store), every read goes through the
    accessor of input store 0 at an index within [lo, hi], every reduce
    goes to index 0 of reduction store 0, and the events do not depend
    on any store of the context other than input store 0 and reduction
    store 0. *)
Theorem reads_stay_in_slice fuel context input :
  inputs context !! 0%nat = Some input ->
  index_bounds (shape input) ->
  (forall s p,
     EvRead s p ∈ trace (cpu_variant fuel context) ->
     s = InputStore 0 /\ lo (shape input) <= p <= hi (shape input)) /\
  (forall s p v,
     EvReduce s p v ∈ trace (cpu_variant fuel context) ->
     s = ReductionStore 0 /\ p = 0) /\
  (forall context2,
     inputs context2 !! 0%nat = Some input ->
     reductions context2 !! 0%nat = reductions context !! 0%nat ->
     trace (cpu_variant fuel context2) = trace (cpu_variant fuel context)).
Proof.
  intros Hin [Hlo Hhi].
  destruct (cpu_variant_trace fuel context input Hin) as (tail & Htr & Htail).
  split; [|split].
  - intros s p Hp. rewrite Htr in Hp.
    apply elem_of_cons in Hp as [Hp|Hp]; [discriminate|].
    apply elem_of_app in Hp as [Hp|Hp].
    + split.
      * apply sum_loop_reads_only in Hp as [q Hq]. congruence.
      * apply sum_loop_reads_in_bounds in Hp; [|lia|].
        -- rewrite to_size_t_small in Hp by lia. exact Hp.
        -- rewrite to_size_t_small by lia. lia.
    + destruct Htail as [->|[total ->]]; [inversion Hp|].
      apply list_elem_of_singleton in Hp. discriminate.
  - intros s p v Hp. rewrite Htr in Hp.
    apply elem_of_cons in Hp as [Hp|Hp]; [discriminate|].
    apply elem_of_app in Hp as [Hp|Hp].
    + apply sum_loop_reads_only in Hp as [q Hq]. discriminate.
    + destruct Htail as [->|[total ->]]; [inversion Hp|].
      apply list_elem_of_singleton in Hp. injection Hp as -> -> _. auto.
  - intros context2 Hin2 Hred. rewrite !cpu_variant_unfold, Hin, Hin2. cbn zeta.
    destruct (sum_loop _ _ _ _ _) as [reads [total|a| |]]; try reflexivity.
    apply after_loop_trace_ext. exact Hred.
Qed.

Lemma reads_stay_in_slice_witness :
  (forall s p,
     EvRead s p ∈ trace (cpu_variant 2 crowded_context) ->
     s = InputStore 0 /\ 0 <= p <= 1) /\
  trace (cpu_variant 2 (mkTaskContext
                          [mkStore FLOAT_LT 1 (mkRect 0 1) (map_seqZ 0 array_1234)] []
                          [mkStore FLOAT_LT 1 (mkRect 0 0) {[ 0 := float_of_Z 9 ]}]))
    = trace (cpu_variant 2 crowded_context).
Proof.
  destruct (reads_stay_in_slice 2 crowded_context
              (mkStore FLOAT_LT 1 (mkRect 0 1) (map_seqZ 0 array_1234)))
    as (Hreads & _ & Hext).
  - reflexivity.
  - unfold index_bounds. simpl. lia.
  - split; [exact Hreads|]. apply Hext; reflexivity.
Defined.

(** * Further properties of the task body *)

(** ** The counter and the coordinates *)

Lemma to_size_t_coordinate c :
  coordinate c -> to_size_t c = if c <? 0 then c + 2 ^ 64 else c.
Proof.
  intros [Hlo Hhi]. unfold to_size_t. destruct (Z.ltb_spec c 0).
  - rewrite <- (Z_mod_plus_full c 1 (2 ^ 64)). apply Z.mod_small. lia.
  - apply Z.mod_small. lia.
Qed.

Lemma to_coord_to_size_t c : coordinate c -> to_coord (to_size_t c) = c.
Proof.
  intros Hc. rewrite (to_size_t_coordinate c Hc). destruct Hc as [Hlo Hhi].
  unfold to_coord. destruct (Z.ltb_spec c 0).
  - destruct (Z.ltb_spec (c + 2 ^ 64) (2 ^ 63)); lia.
  - destruct (Z.ltb_spec c (2 ^ 63)); lia.
Qed.

Lemma to_size_t_to_coord u : 0 <= u < 2 ^ 64 -> to_size_t (to_coord u) = u.
Proof.
  intros Hu. unfold to_coord. destruct (Z.ltb_spec u (2 ^ 63)).
  - apply to_size_t_small. lia.
  - rewrite to_size_t_coordinate by (unfold coordinate; lia).
    destruct (Z.ltb_spec (u - 2 ^ 64) 0); lia.
Qed.

Lemma to_coord_coordinate u : 0 <= u < 2 ^ 64 -> coordinate (to_coord u).
Proof.
  intros Hu. unfold to_coord, coordinate.
  destruct (Z.ltb_spec u (2 ^ 63)); lia.
Qed.

(** X1. The two conversions of the loop undo each other: a coordinate
    turned into the [size_t] counter and back into the index of [in[i]]
    is the coordinate itself, negative ones included, and every value
    of the counter indexes a coordinate that converts back to it. *)
Theorem counter_round_trip :
  (forall c, coordinate c ->
     0 <= to_size_t c < 2 ^ 64 /\ to_coord (to_size_t c) = c) /\
  (forall u, 0 <= u < 2 ^ 64 ->
     coordinate (to_coord u) /\ to_size_t (to_coord u) = u) /\
  (forall c, coordinate c -> (to_size_t c = 2 ^ 64 - 1 <-> c = -1)).
Proof.
  split; [|split].
  - intros c Hc. split; [|apply to_coord_to_size_t; exact Hc].
    unfold to_size_t. apply Z.mod_pos_bound. lia.
  - intros u Hu. split; [apply to_coord_coordinate | apply to_size_t_to_coord]; exact Hu.
  - intros c Hc. rewrite (to_size_t_coordinate c Hc). destruct Hc as [Hlo Hhi].
    destruct (Z.ltb_spec c 0); lia.
Qed.

(** ** The loop on any bounds *)

(** The loop in terms of its unsigned counter: unless [hi] converts to
    the largest [size_t], it tests the counter values from [i] up to the
    converted [hi], reading the coordinate of each. *)
Lemma sum_loop_unsigned input h :
  to_size_t h < 2 ^ 64 - 1 ->
  forall xs i total fuel,
    0 <= i < 2 ^ 64 ->
    Forall2 (fun u x => cells input !! to_coord u = Some x)
            (seqZ i (to_size_t h + 1 - i)) xs ->
    (length xs < fuel)%nat ->
    sum_loop fuel input h i total =
      (map (fun u => EvRead (InputStore 0) (to_coord u)) (seqZ i (to_size_t h + 1 - i)),
       Done (fold_left fadd xs total)).
Proof.
  intros Hh xs. induction xs as [|x xs IH]; intros i total fuel Hi Hseg Hfuel.
  - apply Forall2_nil_inv_r in Hseg.
    assert (to_size_t h < i) as Hlt.
    { destruct (Z.lt_ge_cases (to_size_t h) i) as [|Hle]; [assumption|].
      rewrite seqZ_cons in Hseg by lia. discriminate. }
    rewrite Hseg. destruct fuel as [|fuel]; [simpl in Hfuel; lia|].
    rewrite sum_loop_step. destruct (Z.leb_spec i (to_size_t h)); [lia | reflexivity].
  - assert (i <= to_size_t h) as Hle.
    { destruct (Z.le_gt_cases i (to_size_t h)) as [|Hgt]; [assumption|].
      rewrite seqZ_nil in Hseg by lia. inversion Hseg. }
    rewrite seqZ_cons in Hseg |- * by lia.
    apply Forall2_cons_1 in Hseg as [Hx Hrest].
    destruct fuel as [|fuel]; [simpl in Hfuel; lia|]. simpl in Hfuel.
    rewrite sum_loop_step. destruct (Z.leb_spec i (to_size_t h)); [|lia].
    rewrite Hx, size_t_succ_small by lia.
    replace (Z.pred (to_size_t h + 1 - i)) with (to_size_t h + 1 - (i + 1))
      in Hrest |- * by lia.
    replace (Z.succ i) with (i + 1) in Hrest |- * by lia.
    rewrite (IH (i + 1) (fadd total x) fuel) by (assumption || lia).
    reflexivity.
Qed.

(** Unless [hi] converts to the largest [size_t], the loop comes to an
    end, by leaving or by a fault, within one test per counter value and
    one more. *)
Lemma sum_loop_ends input h :
  to_size_t h < 2 ^ 64 - 1 ->
  forall n fuel i total,
    0 <= i < 2 ^ 64 ->
    (Z.to_nat (to_size_t h + 1 - i) <= n)%nat ->
    (n < fuel)%nat ->
    outcome (sum_loop fuel input h i total) <> OutOfFuel.
Proof.
  intros Hh n. induction n as [|n IH]; intros fuel i total Hi Hn Hfuel;
    (destruct fuel as [|fuel]; [lia|]); rewrite sum_loop_step.
  - destruct (Z.leb_spec i (to_size_t h)); [lia | discriminate].
  - destruct (Z.leb_spec i (to_size_t h)); [|discriminate].
    destruct (cells input !! to_coord i); [|discriminate].
    cbn [outcome snd]. apply IH; rewrite ?size_t_succ_small by lia; lia.
Qed.

Lemma after_loop_ends context input reads total :
  outcome (after_loop context input reads total) <> OutOfFuel.
Proof.
  unfold after_loop. destruct (reductions context !! 0%nat) as [output|]; [|discriminate].
  destruct (bool_decide (code output = FLOAT_LT)), (dim output =? 1),
    (rect_eqb (shape output) (mkRect 0 0)), (cells output !! 0); discriminate.
Qed.

(** A function that shifts a whole window by [d] maps the window onto
    the shifted window. *)
Lemma map_seqZ_shift (f : Z -> Z) d n :
  forall i, (forall u, i <= u < i + n -> f u = u + d) ->
    map f (seqZ i n) = seqZ (i + d) n.
Proof.
  remember (Z.to_nat n) as m eqn:Hm. revert n Hm.
  induction m as [|m IH]; intros n Hm i Hf.
  - rewrite !seqZ_nil by lia. reflexivity.
  - rewrite !(seqZ_cons _ n) by lia. cbn [map]. rewrite Hf by lia.
    rewrite (IH (Z.pred n)) by (lia || (intros u Hu; apply Hf; lia)).
    f_equal. f_equal. lia.
Qed.

Lemma one_sign_counter r :
  one_sign r ->
  0 <= to_size_t (lo r) < 2 ^ 64 /\
  to_size_t (hi r) < 2 ^ 64 - 1 /\
  to_size_t (hi r) + 1 - to_size_t (lo r) = hi r + 1 - lo r /\
  map to_coord (seqZ (to_size_t (lo r)) (hi r + 1 - lo r)) = seqZ (lo r) (hi r + 1 - lo r).
Proof.
  intros (Hlo & Hhi & Hsign).
  rewrite (to_size_t_coordinate _ Hlo), (to_size_t_coordinate _ Hhi).
  unfold coordinate in Hlo, Hhi.
  destruct Hsign as [[Hl Hh]|[Hl Hh]];
    destruct (Z.ltb_spec (lo r) 0); destruct (Z.ltb_spec (hi r) 0); try lia.
  - repeat split; try lia.
    rewrite (map_seqZ_shift to_coord 0); [f_equal; lia|].
    intros u Hu. rewrite to_coord_small by lia. lia.
  - repeat split; try lia.
    rewrite (map_seqZ_shift to_coord (- 2 ^ 64)); [f_equal; lia|].
    intros u Hu. unfold to_coord. destruct (Z.ltb_spec u (2 ^ 63)); lia.
Qed.

(** A whole invocation on bounds of one sign. *)
Lemma cpu_variant_run_one_sign context input output xs a fuel :
  inputs context !! 0%nat = Some input ->
  reductions context !! 0%nat = Some output ->
  one_sign (shape input) ->
  segment input = Some xs ->
  accumulator output a ->
  (length xs < fuel)%nat ->
  cpu_variant fuel context =
    (run_trace (shape input) (sequential_sum xs),
     Done (mkTaskContext (inputs context) (outputs context)
             (<[0%nat := mkStore FLOAT_LT 1 (mkRect 0 0)
                           (<[0 := fadd a (sequential_sum xs)]> (cells output))]>
                (reductions context)))).
Proof.
  intros Hin Hout Hsign Hseg Hacc Hfuel.
  destruct (one_sign_counter _ Hsign) as (Hi & Hh & Hn & Hmap).
  rewrite cpu_variant_unfold, Hin. cbn zeta.
  rewrite (sum_loop_unsigned input (hi (shape input)) Hh xs); try assumption.
  - rewrite Hn, <- (map_map to_coord (EvRead (InputStore 0))), Hmap.
    apply (after_loop_accumulator _ _ _ _ _ _ Hout Hacc).
  - rewrite Hn. apply mapM_Some_1 in Hseg. rewrite <- Hmap in Hseg.
    apply Forall2_fmap_l in Hseg. exact Hseg.
Qed.

(** X2. On bounds of one sign whose upper bound is not -1 (array bounds,
    or a range entirely below -1) and a backed segment, an invocation
    with a proper accumulator completes, and what it does is exactly:
    the log record, one read of each index lo, lo+1, ..., hi in
    ascending order, then one reduce of their sequential sum into
    index 0 of reduction store 0. *)
Theorem run_reads_each_index_once context input output xs a fuel :
  inputs context !! 0%nat = Some input ->
  reductions context !! 0%nat = Some output ->
  one_sign (shape input) ->
  segment input = Some xs ->
  accumulator output a ->
  (length xs < fuel)%nat ->
  trace (cpu_variant fuel context) =
    EvLog (lo (shape input)) (hi (shape input))
      :: map (EvRead (InputStore 0))
             (seqZ (lo (shape input)) (hi (shape input) + 1 - lo (shape input)))
      ++ [EvReduce (ReductionStore 0) 0 (sequential_sum xs)] /\
  exists context',
    outcome (cpu_variant fuel context) = Done context' /\
    accumulator_value context' = Some (fadd a (sequential_sum xs)).
Proof.
  intros Hin Hout Hsign Hseg Hacc Hfuel.
  rewrite (cpu_variant_run_one_sign context input output xs a fuel) by assumption.
  split; [reflexivity|]. eexists. split; [reflexivity|].
  rewrite accumulator_value_insert by (eapply lookup_lt_Some; eassumption).
  cbn [cells]. apply lookup_insert_eq.
Qed.

Lemma run_reads_each_index_once_witness :
  trace (cpu_variant 3 (mkTaskContext [store_below_zero] [] [accumulator_5])) =
    EvLog (-3) (-2)
      :: map (EvRead (InputStore 0)) (seqZ (-3) (-2 + 1 - -3))
      ++ [EvReduce (ReductionStore 0) 0 (sequential_sum [float_of_Z 1; float_of_Z 2])] /\
  exists context',
    outcome (cpu_variant 3 (mkTaskContext [store_below_zero] [] [accumulator_5]))
      = Done context' /\
    accumulator_value context'
      = Some (fadd (float_of_Z 5) (sequential_sum [float_of_Z 1; float_of_Z 2])).
Proof.
  apply (run_reads_each_index_once
           (mkTaskContext [store_below_zero] [] [accumulator_5])
           store_below_zero accumulator_5 [float_of_Z 1; float_of_Z 2]
           (float_of_Z 5) 3).
  - reflexivity.
  - reflexivity.
  - unfold one_sign, coordinate. simpl. lia.
  - vm_compute. reflexivity.
  - unfold accumulator. simpl. repeat split; reflexivity.
  - simpl. lia.
Defined.

(** When the converted [lo] is above the converted [hi], the body of the
    loop never runs. *)
Lemma cpu_variant_skips context input output a fuel :
  inputs context !! 0%nat = Some input ->
  reductions context !! 0%nat = Some output ->
  to_size_t (hi (shape input)) < to_size_t (lo (shape input)) ->
  accumulator output a ->
  (0 < fuel)%nat ->
  cpu_variant fuel context =
    ([EvLog (lo (shape input)) (hi (shape input)); EvReduce (ReductionStore 0) 0 fzero],
     Done (mkTaskContext (inputs context) (outputs context)
             (<[0%nat := mkStore FLOAT_LT 1 (mkRect 0 0)
                           (<[0 := fadd a fzero]> (cells output))]>
                (reductions context)))).
Proof.
  intros Hin Hout Hlt Hacc Hfuel. destruct fuel as [|fuel]; [lia|].
  rewrite cpu_variant_unfold, Hin. cbn zeta. rewrite sum_loop_step.
  destruct (Z.leb_spec (to_size_t (lo (shape input))) (to_size_t (hi (shape input))));
    [lia|].
  exact (after_loop_accumulator context input output [] fzero a Hout Hacc).
Qed.

(** ** Empty ranges and ranges around the origin *)

(** X3. An empty range ([hi < lo]) whose bounds are both array indices,
    or both negative, costs no read: the invocation logs, reduces 0.0
    into the accumulator and completes, whatever the memory of the input
    store holds. *)
Theorem empty_range_reduces_zero context input output a fuel :
  inputs context !! 0%nat = Some input ->
  reductions context !! 0%nat = Some output ->
  coordinate (lo (shape input)) ->
  coordinate (hi (shape input)) ->
  hi (shape input) < lo (shape input) ->
  0 <= hi (shape input) \/ lo (shape input) < 0 ->
  accumulator output a ->
  (0 < fuel)%nat ->
  trace (cpu_variant fuel context) =
    [EvLog (lo (shape input)) (hi (shape input)); EvReduce (ReductionStore 0) 0 fzero] /\
  exists context',
    outcome (cpu_variant fuel context) = Done context' /\
    accumulator_value context' = Some (fadd a fzero).
Proof.
  intros Hin Hout Hlo Hhi Hlt Hsign Hacc Hfuel.
  rewrite (cpu_variant_skips context input output a fuel); try assumption.
  - split; [reflexivity|]. eexists. split; [reflexivity|].
    rewrite accumulator_value_insert by (eapply lookup_lt_Some; eassumption).
    cbn [cells]. apply lookup_insert_eq.
  - rewrite (to_size_t_coordinate _ Hlo), (to_size_t_coordinate _ Hhi).
    unfold coordinate in Hlo, Hhi.
    destruct (Z.ltb_spec (lo (shape input)) 0), (Z.ltb_spec (hi (shape input)) 0); lia.
Qed.

Lemma empty_range_reduces_zero_witness :
  trace (cpu_variant 1 (point_context array_1234 (mkRect 3 2))) =
    [EvLog 3 2; EvReduce (ReductionStore 0) 0 fzero] /\
  exists context',
    outcome (cpu_variant 1 (point_context array_1234 (mkRect 3 2))) = Done context' /\
    accumulator_value context' = Some (fadd fzero fzero).
Proof.
  apply (empty_range_reduces_zero
           (point_context array_1234 (mkRect 3 2))
           (slice_store array_1234 (mkRect 3 2)) fresh_accumulator fzero 1).
  - reflexivity.
  - reflexivity.
  - unfold coordinate. simpl. lia.
  - unfold coordinate. simpl. lia.
  - simpl. lia.
  - left. simpl. lia.
  - unfold accumulator. simpl. repeat split; reflexivity.
  - lia.
Defined.

(** X4. A range that starts below the origin and ends at or above it is
    not empty, yet the loop treats it as empty: [lo] converts to a
    counter above every array index, the first test fails, no element is
    read and 0.0 is reduced, whatever the elements are. *)
Theorem range_across_zero_is_skipped context input output a fuel :
  inputs context !! 0%nat = Some input ->
  reductions context !! 0%nat = Some output ->
  coordinate (lo (shape input)) ->
  coordinate (hi (shape input)) ->
  lo (shape input) < 0 <= hi (shape input) ->
  accumulator output a ->
  (0 < fuel)%nat ->
  trace (cpu_variant fuel context) =
    [EvLog (lo (shape input)) (hi (shape input)); EvReduce (ReductionStore 0) 0 fzero] /\
  exists context',
    outcome (cpu_variant fuel context) = Done context' /\
    accumulator_value context' = Some (fadd a fzero).
Proof.
  intros Hin Hout Hlo Hhi Hacross Hacc Hfuel.
  rewrite (cpu_variant_skips context input output a fuel); try assumption.
  - split; [reflexivity|]. eexists. split; [reflexivity|].
    rewrite accumulator_value_insert by (eapply lookup_lt_Some; eassumption).
    cbn [cells]. apply lookup_insert_eq.
  - rewrite (to_size_t_coordinate _ Hlo), (to_size_t_coordinate _ Hhi).
    unfold coordinate in Hlo, Hhi.
    destruct (Z.ltb_spec (lo (shape input)) 0), (Z.ltb_spec (hi (shape input)) 0); lia.
Qed.

Lemma range_across_zero_is_skipped_witness :
  trace (cpu_variant 1 (mkTaskContext [store_across_zero] [] [fresh_accumulator])) =
    [EvLog (-1) 0; EvReduce (ReductionStore 0) 0 fzero] /\
  exists context',
    outcome (cpu_variant 1 (mkTaskContext [store_across_zero] [] [fresh_accumulator]))
      = Done context' /\
    accumulator_value context' = Some (fadd fzero fzero).
Proof.
  apply (range_across_zero_is_skipped
           (mkTaskContext [store_across_zero] [] [fresh_accumulator])
           store_across_zero fresh_accumulator fzero 1).
  - reflexivity.
  - reflexivity.
  - unfold coordinate. simpl. lia.
  - unfold coordinate. simpl. lia.
  - simpl. lia.
  - unfold accumulator. simpl. repeat split; reflexivity.
  - lia.
Defined.

(** X5. An empty range whose lower bound is an array index and whose
    upper bound is negative is not treated as empty: [hi] converts to a
    counter above every array index, so the first test succeeds and the
    loop reads index [lo], which lies outside the range. *)
Theorem empty_range_below_zero_is_read context input fuel :
  inputs context !! 0%nat = Some input ->
  coordinate (lo (shape input)) ->
  coordinate (hi (shape input)) ->
  hi (shape input) < 0 <= lo (shape input) ->
  (0 < fuel)%nat ->
  exists rest,
    trace (cpu_variant fuel context) =
      EvLog (lo (shape input)) (hi (shape input))
        :: EvRead (InputStore 0) (lo (shape input)) :: rest.
Proof.
  intros Hin Hlo Hhi Hsign Hfuel. destruct fuel as [|fuel]; [lia|].
  destruct (cpu_variant_trace (S fuel) context input Hin) as (tail & Htr & _).
  rewrite Htr, sum_loop_step.
  rewrite (to_size_t_coordinate _ Hlo), (to_size_t_coordinate _ Hhi).
  unfold coordinate in Hlo, Hhi.
  destruct (Z.ltb_spec (lo (shape input)) 0), (Z.ltb_spec (hi (shape input)) 0);
    try lia.
  destruct (Z.leb_spec (lo (shape input)) (hi (shape input) + 2 ^ 64)); [|lia].
  rewrite to_coord_small by lia.
  destruct (cells input !! lo (shape input)); cbn [trace fst app]; eauto.
Qed.

Lemma empty_range_below_zero_is_read_witness :
  exists rest,
    trace (cpu_variant 1 (point_context array_1234 (mkRect 2 (-5)))) =
      EvLog 2 (-5) :: EvRead (InputStore 0) 2 :: rest.
Proof.
  apply (empty_range_below_zero_is_read
           (point_context array_1234 (mkRect 2 (-5)))
           (slice_store array_1234 (mkRect 2 (-5))) 1).
  - reflexivity.
  - unfold coordinate. simpl. lia.
  - unfold coordinate. simpl. lia.
  - simpl. lia.
  - lia.
Defined.

(** ** Coming to an end *)

(** X6. The invocation comes to an end (it completes, aborts on an
    assertion or faults) for every upper bound other than -1, within one
    loop test per counter value from the converted [lo] to the converted
    [hi] and one more; for [hi = -1] the loop test can never fail, so
    the invocation neither completes nor reaches its assertions, on any
    fuel. *)
Theorem invocation_ends_unless_hi_is_minus_one context input fuel :
  inputs context !! 0%nat = Some input ->
  coordinate (lo (shape input)) ->
  coordinate (hi (shape input)) ->
  (hi (shape input) <> -1 ->
   (Z.to_nat (to_size_t (hi (shape input)) + 1 - to_size_t (lo (shape input))) < fuel)%nat ->
   outcome (cpu_variant fuel context) <> OutOfFuel) /\
  (hi (shape input) = -1 ->
   (forall context', outcome (cpu_variant fuel context) <> Done context') /\
   (forall a, outcome (cpu_variant fuel context) <> AssertionFailed a)).
Proof.
  intros Hin Hlo Hhi.
  assert (0 <= to_size_t (lo (shape input)) < 2 ^ 64) as Hi
    by (unfold to_size_t; apply Z.mod_pos_bound; lia).
  rewrite cpu_variant_unfold, Hin. cbn zeta. split.
  - intros Hne Hfuel.
    assert (to_size_t (hi (shape input)) < 2 ^ 64 - 1) as Hh.
    { rewrite (to_size_t_coordinate _ Hhi). unfold coordinate in Hhi.
      destruct (Z.ltb_spec (hi (shape input)) 0); lia. }
    pose proof (sum_loop_ends input (hi (shape input)) Hh _ fuel
                  (to_size_t (lo (shape input))) fzero Hi (le_n _) Hfuel) as Hend.
    destruct (sum_loop _ _ _ _ _) as [reads [total|a| |]]; try discriminate.
    + apply after_loop_ends.
    + exfalso. apply Hend. reflexivity.
  - intros Heq.
    assert (to_size_t (hi (shape input)) = 2 ^ 64 - 1) as Hmax
      by (rewrite Heq; reflexivity).
    pose proof (sum_loop_no_exit input (hi (shape input)) Hmax fuel
                  (to_size_t (lo (shape input))) fzero) as Hloop.
    pose proof (sum_loop_no_assertion fuel input (hi (shape input))
                  (to_size_t (lo (shape input))) fzero) as Hno.
    destruct (sum_loop _ _ _ _ _) as [reads [total|a| |]];
      try (split; intros; discriminate).
    + exfalso. apply (Hloop total Hi). reflexivity.
    + exfalso. apply (Hno a). reflexivity.
Qed.

Lemma invocation_ends_unless_hi_is_minus_one_witness :
  outcome (cpu_variant 3 (mkTaskContext [store_below_zero] [] [])) <> OutOfFuel.
Proof.
  apply (invocation_ends_unless_hi_is_minus_one
           (mkTaskContext [store_below_zero] [] []) store_below_zero 3).
  - reflexivity.
  - unfold coordinate. simpl. lia.
  - unfold coordinate. simpl. lia.
  - simpl. lia.
  - vm_compute. lia.
Defined.

(** ** Special values among the elements *)

Lemma fadd_nan_r x : fadd x S754_nan = S754_nan.
Proof. destruct x as [[]|[]| |]; reflexivity. Qed.

Lemma fold_fadd_nan xs : fold_left fadd xs S754_nan = S754_nan.
Proof. induction xs as [|x xs IH]; [reflexivity | exact IH]. Qed.

Lemma fold_fadd_with_nan xs :
  forall t, S754_nan ∈ xs -> fold_left fadd xs t = S754_nan.
Proof.
  induction xs as [|x xs IH]; intros t Hin; [inversion Hin|].
  apply elem_of_cons in Hin as [<-|Hin]; cbn [fold_left].
  - rewrite fadd_nan_r. apply fold_fadd_nan.
  - apply IH. exact Hin.
Qed.

(** X7. A NaN anywhere in the segment makes the local total NaN, and the
    reduce then turns the accumulator into NaN, whatever it held. *)
Theorem nan_poisons_the_accumulator context input output xs a fuel :
  inputs context !! 0%nat = Some input ->
  reductions context !! 0%nat = Some output ->
  index_bounds (shape input) ->
  segment input = Some xs ->
  S754_nan ∈ xs ->
  accumulator output a ->
  (length xs < fuel)%nat ->
  contribution (trace (cpu_variant fuel context)) = Some S754_nan /\
  exists context',
    outcome (cpu_variant fuel context) = Done context' /\
    accumulator_value context' = Some S754_nan.
Proof.
  intros Hin Hout Hb Hseg Hnan Hacc Hfuel.
  rewrite (cpu_variant_run context input output xs a fuel) by assumption.
  assert (sequential_sum xs = S754_nan) as -> by (apply fold_fadd_with_nan; exact Hnan).
  cbn [trace outcome fst snd]. split; [apply contribution_run_trace|].
  eexists. split; [reflexivity|].
  rewrite accumulator_value_insert by (eapply lookup_lt_Some; eassumption).
  cbn [cells]. rewrite fadd_nan_r. apply lookup_insert_eq.
Qed.

Lemma nan_poisons_the_accumulator_witness :
  contribution (trace (cpu_variant 3 (mkTaskContext [store_with_nan] [] [accumulator_5])))
    = Some S754_nan /\
  exists context',
    outcome (cpu_variant 3 (mkTaskContext [store_with_nan] [] [accumulator_5]))
      = Done context' /\
    accumulator_value context' = Some S754_nan.
Proof.
  apply (nan_poisons_the_accumulator
           (mkTaskContext [store_with_nan] [] [accumulator_5])
           store_with_nan accumulator_5 [float_of_Z 1; S754_nan] (float_of_Z 5) 3).
  - reflexivity.
  - reflexivity.
  - unfold index_bounds. simpl. lia.
  - vm_compute. reflexivity.
  - right. left.
  - unfold accumulator. simpl. repeat split; reflexivity.
  - simpl. lia.
Defined.

Lemma fold_fadd_zeros xs :
  Forall (fun x => exists s, x = S754_zero s) xs -> fold_left fadd xs fzero = fzero.
Proof.
  induction 1 as [|x xs [s ->] _ IH]; [reflexivity|].
  cbn [fold_left]. destruct s; exact IH.
Qed.

(** X8. The total starts from positive zero, so a segment made of zeros
    only, of either sign, contributes positive zero: the sign of a slice
    of negative zeros is lost. *)
Theorem zeros_contribute_positive_zero context input output xs a fuel :
  inputs context !! 0%nat = Some input ->
  reductions context !! 0%nat = Some output ->
  index_bounds (shape input) ->
  segment input = Some xs ->
  Forall (fun x => exists s, x = S754_zero s) xs ->
  accumulator output a ->
  (length xs < fuel)%nat ->
  contribution (trace (cpu_variant fuel context)) = Some (S754_zero false).
Proof.
  intros Hin Hout Hb Hseg Hzeros Hacc Hfuel.
  rewrite (cpu_variant_run context input output xs a fuel) by assumption.
  assert (sequential_sum xs = fzero) as -> by (apply fold_fadd_zeros; exact Hzeros).
  apply contribution_run_trace.
Qed.

Lemma zeros_contribute_positive_zero_witness :
  contribution
    (trace (cpu_variant 3 (mkTaskContext [store_of_negative_zeros] [] [fresh_accumulator])))
    = Some (S754_zero false).
Proof.
  apply (zeros_contribute_positive_zero
           (mkTaskContext [store_of_negative_zeros] [] [fresh_accumulator])
           store_of_negative_zeros fresh_accumulator
           [S754_zero true; S754_zero true] fzero 3).
  - reflexivity.
  - reflexivity.
  - unfold index_bounds. simpl. lia.
  - vm_compute. reflexivity.
  - repeat (apply List.Forall_cons; [exists true; reflexivity|]). apply List.Forall_nil.
  - unfold accumulator. simpl. repeat split; reflexivity.
  - simpl. lia.
Defined.

(** ** What no invocation does *)

(** How the part after the loop completes. *)
Lemma after_loop_Done context input reads total context' :
  outcome (after_loop context input reads total) = Done context' ->
  exists output a,
    reductions context !! 0%nat = Some output /\
    preconditions output /\
    cells output !! 0 = Some a /\
    context' = mkTaskContext (inputs context) (outputs context)
                 (<[0%nat := mkStore (code output) (dim output) (shape output)
                               (<[0 := fadd a total]> (cells output))]>
                    (reductions context)) /\
    trace (after_loop context input reads total) =
      EvLog (lo (shape input)) (hi (shape input))
        :: reads ++ [EvReduce (ReductionStore 0) 0 total].
Proof.
  unfold after_loop. destruct (reductions context !! 0%nat) as [output|]; [|discriminate].
  destruct (bool_decide_reflect (code output = FLOAT_LT)) as [Hc|]; [|discriminate].
  destruct (Z.eqb_spec (dim output) 1) as [Hd|]; [|discriminate].
  destruct (rect_eqb (shape output) (mkRect 0 0)) eqn:Hs; [|discriminate].
  apply rect_eqb_eq in Hs.
  destruct (cells output !! 0) as [a|] eqn:Hcell; [|discriminate].
  intros [= <-]. exists output, a. repeat split; assumption || reflexivity.
Qed.

Lemma reduced_values_loop_then fuel input h i total tail :
  reduced_values (trace (sum_loop fuel input h i total) ++ tail) = reduced_values tail.
Proof.
  unfold reduced_values. rewrite omap_app.
  fold (reduced_values (trace (sum_loop fuel input h i total))).
  rewrite loop_reduces_nothing. reflexivity.
Qed.

(** X9. No invocation reduces twice, whatever its context and however
    long it runs: a completed invocation has reduced exactly once, as its
    last event and into index 0 of reduction store 0; an invocation that
    is still in its loop has not reduced at all. *)
Theorem never_reduces_twice fuel context :
  (length (reduced_values (trace (cpu_variant fuel context))) <= 1)%nat /\
  (forall context',
     outcome (cpu_variant fuel context) = Done context' ->
     exists v,
       reduced_values (trace (cpu_variant fuel context)) = [v] /\
       last (trace (cpu_variant fuel context)) = Some (EvReduce (ReductionStore 0) 0 v)) /\
  (outcome (cpu_variant fuel context) = OutOfFuel ->
   reduced_values (trace (cpu_variant fuel context)) = []).
Proof.
  destruct (inputs context !! 0%nat) as [input|] eqn:Hin.
  - destruct (cpu_variant_trace fuel context input Hin) as (tail & Htr & Htail).
    rewrite Htr, reduced_values_log, reduced_values_loop_then.
    split; [|split].
    + destruct Htail as [->|[v ->]]; cbn; lia.
    + intros context' Hdone. rewrite cpu_variant_unfold, Hin in Hdone, Htr.
      cbn zeta in Hdone, Htr.
      destruct (sum_loop _ _ _ _ _) as [reads [total|a| |]]; try discriminate.
      destruct (after_loop_Done _ _ _ _ _ Hdone) as (output & a & _ & _ & _ & _ & Hafter).
      rewrite Hafter in Htr. cbn [trace fst] in Htr.
      injection Htr as Htr. apply app_inv_head in Htr. subst tail.
      exists total. split; [reflexivity|].
      rewrite app_comm_cons, last_snoc. reflexivity.
    + intros Hout. rewrite cpu_variant_unfold, Hin in Hout, Htr.
      cbn zeta in Hout, Htr.
      destruct (sum_loop _ _ _ _ _) as [reads [total|a| |]]; try discriminate.
      * exfalso. exact (after_loop_ends _ _ _ _ Hout).
      * cbn [trace fst] in Htr. injection Htr as Htr.
        rewrite <- (app_nil_r reads) in Htr at 1.
        apply app_inv_head in Htr. subst tail. reflexivity.
  - rewrite cpu_variant_unfold, Hin. cbn.
    split; [lia|]. split; [discriminate | reflexivity].
Qed.

(** X10. Whatever the bounds, the memory and the other stores, an
    invocation that completes has found a reduction store 0 that meets
    the three preconditions, and hands back the context it was given
    with one change: cell 0 of that store holds its old value plus the
    reduced value. The input stores, the output stores, every other
    reduction store and every other cell are as they were. *)
Theorem completed_invocation_frame fuel context context' :
  outcome (cpu_variant fuel context) = Done context' ->
  inputs context' = inputs context /\
  outputs context' = outputs context /\
  length (reductions context') = length (reductions context) /\
  (forall n, n <> 0%nat -> reductions context' !! n = reductions context !! n) /\
  exists output output' a v,
    reductions context !! 0%nat = Some output /\
    preconditions output /\
    cells output !! 0 = Some a /\
    reduced_values (trace (cpu_variant fuel context)) = [v] /\
    reductions context' !! 0%nat = Some output' /\
    code output' = code output /\ dim output' = dim output /\
    shape output' = shape output /\
    cells output' !! 0 = Some (fadd a v) /\
    forall p, p <> 0 -> cells output' !! p = cells output !! p.
Proof.
  intros Hdone. rewrite cpu_variant_unfold in Hdone |- *.
  destruct (inputs context !! 0%nat) as [input|]; [|discriminate].
  cbn zeta in Hdone |- *.
  pose proof (loop_reduces_nothing fuel input (hi (shape input))
                (to_size_t (lo (shape input))) fzero) as Hnone.
  destruct (sum_loop _ _ _ _ _) as [reads [total|a| |]]; try discriminate.
  cbn [trace fst] in Hnone.
  destruct (after_loop_Done _ _ _ _ _ Hdone) as (output & a & Hout & Hpre & Hcell & -> & ->).
  cbn [inputs outputs reductions trace fst].
  split; [reflexivity|]. split; [reflexivity|].
  split; [apply length_insert|].
  split; [intros n Hn; apply list_lookup_insert_ne; congruence|].
  eexists output, _, a, total.
  split; [exact Hout|]. split; [exact Hpre|]. split; [exact Hcell|].
  split.
  { rewrite reduced_values_log. unfold reduced_values in *.
    rewrite omap_app, Hnone. reflexivity. }
  split.
  { apply list_lookup_insert_eq. eapply lookup_lt_Some; eassumption. }
  cbn [code dim shape cells]. repeat split.
  - apply lookup_insert_eq.
  - intros p Hp. apply lookup_insert_ne. congruence.
Qed.

Lemma completed_invocation_frame_witness :
  exists context',
    outcome (cpu_variant 3 (mkTaskContext [store_below_zero] [] [accumulator_5]))
      = Done context' /\
    inputs context' = [store_below_zero] /\
    outputs context' = [] /\
    length (reductions context') = 1%nat /\
    accumulator_value context'
      = Some (fadd (float_of_Z 5) (sequential_sum [float_of_Z 1; float_of_Z 2])).
Proof.
  assert (exists context',
             outcome (cpu_variant 3 (mkTaskContext [store_below_zero] [] [accumulator_5]))
               = Done context') as [context' Hdone]
    by (eexists; vm_compute; reflexivity).
  exists context'. split; [exact Hdone|].
  destruct (completed_invocation_frame 3
              (mkTaskContext [store_below_zero] [] [accumulator_5]) context' Hdone)
    as (Hi & Ho & Hlen & _ & _).
  split; [exact Hi|]. split; [exact Ho|]. split; [exact Hlen|].
  revert Hdone. vm_compute. intros [= <-]. reflexivity.
Defined.

(** ** The assertions come last *)

(** X11. The three preconditions are tested only after the loop: when
    the reduction store violates one of them, the invocation has by then
    logged and read every element of the segment, in order, and only
    then aborts, with nothing reduced. *)
Theorem assertions_run_after_the_reads context input output xs fuel :
  inputs context !! 0%nat = Some input ->
  reductions context !! 0%nat = Some output ->
  index_bounds (shape input) ->
  segment input = Some xs ->
  ~ preconditions output ->
  (length xs < fuel)%nat ->
  trace (cpu_variant fuel context) =
    EvLog (lo (shape input)) (hi (shape input))
      :: map (EvRead (InputStore 0))
             (seqZ (lo (shape input)) (hi (shape input) + 1 - lo (shape input))) /\
  exists a, outcome (cpu_variant fuel context) = AssertionFailed a.
Proof.
  intros Hin Hout [Hlo Hhi] Hseg Hpre Hfuel.
  rewrite cpu_variant_unfold, Hin. cbn zeta.
  rewrite to_size_t_small by lia.
  rewrite (sum_loop_segment input (hi (shape input)) Hhi xs) by
    (try apply mapM_Some_1; assumption).
  unfold after_loop. rewrite Hout.
  destruct (bool_decide_reflect (code output = FLOAT_LT)) as [Hc|];
    [|split; [reflexivity | eauto]].
  destruct (Z.eqb_spec (dim output) 1) as [Hd|]; [|split; [reflexivity | eauto]].
  destruct (rect_eqb (shape output) (mkRect 0 0)) eqn:Hs;
    [|split; [reflexivity | eauto]].
  apply rect_eqb_eq in Hs. exfalso. apply Hpre. repeat split; assumption.
Qed.

Lemma assertions_run_after_the_reads_witness :
  trace (cpu_variant 3 (mkTaskContext [slice_store array_1234 (mkRect 0 1)] []
                                      [double_accumulator])) =
    EvLog 0 1 :: map (EvRead (InputStore 0)) (seqZ 0 (1 + 1 - 0)) /\
  exists a,
    outcome (cpu_variant 3 (mkTaskContext [slice_store array_1234 (mkRect 0 1)] []
                                          [double_accumulator]))
      = AssertionFailed a.
Proof.
  apply (assertions_run_after_the_reads
           (mkTaskContext [slice_store array_1234 (mkRect 0 1)] [] [double_accumulator])
           (slice_store array_1234 (mkRect 0 1)) double_accumulator
           [float_of_Z 1; float_of_Z 2] 3).
  - reflexivity.
  - reflexivity.
  - unfold index_bounds. simpl. lia.
  - vm_compute. reflexivity.
  - unfold preconditions. simpl. intros (Hcode & _). discriminate Hcode.
  - simpl. lia.
Defined.

(** ** Running the task again *)

(** X12. The task is not idempotent: run a second time on the context
    the first run handed back, it sums the same segment again and
    reduces the same value once more, so the accumulator ends at its
    initial value plus the sum, plus the sum. *)
Theorem second_run_reduces_again context input output xs a fuel :
  inputs context !! 0%nat = Some input ->
  reductions context !! 0%nat = Some output ->
  index_bounds (shape input) ->
  segment input = Some xs ->
  accumulator output a ->
  (length xs < fuel)%nat ->
  exists context1 context2,
    outcome (cpu_variant fuel context) = Done context1 /\
    outcome (cpu_variant fuel context1) = Done context2 /\
    contribution (trace (cpu_variant fuel context1))
      = contribution (trace (cpu_variant fuel context)) /\
    accumulator_value context1 = Some (fadd a (sequential_sum xs)) /\
    accumulator_value context2
      = Some (fadd (fadd a (sequential_sum xs)) (sequential_sum xs)).
Proof.
  intros Hin Hout Hb Hseg Hacc Hfuel.
  assert (0 < length (reductions context))%nat as Hlen
    by (eapply lookup_lt_Some; eassumption).
  rewrite (cpu_variant_run context input output xs a fuel) by assumption.
  eexists. cbn [outcome snd trace fst].
  set (output1 := mkStore FLOAT_LT 1 (mkRect 0 0)
                    (<[0 := fadd a (sequential_sum xs)]> (cells output))).
  set (context1 := mkTaskContext (inputs context) (outputs context)
                     (<[0%nat := output1]> (reductions context))).
  assert (reductions context1 !! 0%nat = Some output1) as Hout1
    by (apply list_lookup_insert_eq; exact Hlen).
  assert (accumulator output1 (fadd a (sequential_sum xs))) as Hacc1.
  { unfold accumulator, output1. cbn [code dim shape cells].
    repeat split. apply lookup_insert_eq. }
  rewrite (cpu_variant_run context1 input output1 xs (fadd a (sequential_sum xs)) fuel)
    by assumption.
  eexists. cbn [outcome snd trace fst].
  split; [reflexivity|]. split; [reflexivity|]. split; [reflexivity|].
  split.
  - unfold context1. rewrite accumulator_value_insert by exact Hlen.
    apply lookup_insert_eq.
  - rewrite (accumulator_value_insert context1)
      by (eapply lookup_lt_Some; exact Hout1).
    apply lookup_insert_eq.
Qed.

Lemma second_run_reduces_again_witness :
  exists context1 context2,
    outcome (cpu_variant 3 (point_context array_1234 (mkRect 0 1))) = Done context1 /\
    outcome (cpu_variant 3 context1) = Done context2 /\
    contribution (trace (cpu_variant 3 context1))
      = contribution (trace (cpu_variant 3 (point_context array_1234 (mkRect 0 1)))) /\
    accumulator_value context1
      = Some (fadd fzero (sequential_sum [float_of_Z 1; float_of_Z 2])) /\
    accumulator_value context2
      = Some (fadd (fadd fzero (sequential_sum [float_of_Z 1; float_of_Z 2]))
                   (sequential_sum [float_of_Z 1; float_of_Z 2])).
Proof.
  apply (second_run_reduces_again
           (point_context array_1234 (mkRect 0 1))
           (slice_store array_1234 (mkRect 0 1))
           fresh_accumulator [float_of_Z 1; float_of_Z 2] fzero 3).
  - reflexivity.
  - reflexivity.
  - unfold index_bounds. simpl. lia.
  - vm_compute. reflexivity.
  - unfold accumulator. simpl. repeat split; reflexivity.
  - simpl. lia.
Defined.
